(** * sonnet/python/ops/nest.py: flattening and packing nested structures

    A shallow embedding of [flatten_iterable], [pack_iterable_as] and their
    helpers ([_sorted], [_iterable_like], [_yield_value_from_iterable],
    [_yield_flat_nest_from_iterable], [is_iterable],
    [_packed_iterable_nest_with_indices]).

    Python values are a closed inductive type; a call returns [Ok] with its
    value or [Raise] with its exception.  Host semantics are those of Python 3:
    [sorted] compares with [<], which raises [TypeError] between an [int] and
    a [str], and the [dict] constructor keeps insertion order. *)

From Stdlib Require Import List ZArith Lia Bool Arith.
From Stdlib Require Import Ascii String DecimalString.
From Stdlib Require Import Permutation Sorted OrderedTypeEx.
Import ListNotations.

Local Open Scope string_scope.
Local Open Scope list_scope.

(** ** Values *)

(** Dictionary keys: the hashable scalars of the model. *)
Inductive key : Type :=
| KInt (z : Z)
| KStr (s : string).

(** [dict] and [collections.OrderedDict]: what [type(instance)] returns for
    a mapping. *)
Inductive dict_kind : Type :=
| PlainDict
| OrderedDict.

#[local] Unset Elimination Schemes.

(** Python values.  A dictionary is its list of items in native iteration
    order.  An ndarray or a tensor carries what host-level iteration over it
    would yield: [None] where [iter] raises [TypeError] (a 0-d array, a
    symbolic tensor), [Some] elements otherwise. *)
Inductive value : Type :=
| VNone
| VInt (z : Z)
| VStr (s : string)
| VNdarray (elems : option (list Z))
| VTensor (name : string) (elems : option (list Z))
| VList (l : list value)
| VTuple (l : list value)
| VNamedTuple (typename : string) (_fields : list string) (l : list value)
| VDict (kind : dict_kind) (items : list (key * value)).

#[local] Set Elimination Schemes.

Definition key_eq_dec (a b : key) : {a = b} + {a <> b}.
Proof. decide equality; [apply Z.eq_dec | apply string_dec]. Defined.

Definition key_eqb (a b : key) : bool :=
  if key_eq_dec a b then true else false.

Definition value_of_key (k : key) : value :=
  match k with
  | KInt z => VInt z
  | KStr s => VStr s
  end.

(** Nesting depth: the recursion depth the traversals need. *)
Fixpoint depth (v : value) : nat :=
  match v with
  | VList l | VTuple l | VNamedTuple _ _ l =>
      S (list_max (map depth l))
  | VDict _ items =>
      S (list_max (map (fun kv => depth (snd kv)) items))
  | _ => 0
  end.

(** The induction principle the nested occurrences of [value] call for. *)
Section value_ind_nested.
Variable P : value -> Prop.
Hypothesis HNone : P VNone.
Hypothesis HInt : forall z, P (VInt z).
Hypothesis HStr : forall s, P (VStr s).
Hypothesis HNdarray : forall e, P (VNdarray e).
Hypothesis HTensor : forall n e, P (VTensor n e).
Hypothesis HList : forall l, Forall P l -> P (VList l).
Hypothesis HTuple : forall l, Forall P l -> P (VTuple l).
Hypothesis HNamed : forall n f l, Forall P l -> P (VNamedTuple n f l).
Hypothesis HDict :
  forall k items, Forall (fun kv => P (snd kv)) items -> P (VDict k items).

Fixpoint value_ind_nested (v : value) : P v :=
  let fix go (l : list value) : Forall P l :=
    match l with
    | [] => Forall_nil _
    | x :: l' => Forall_cons _ (value_ind_nested x) (go l')
    end in
  let fix go_items (l : list (key * value))
    : Forall (fun kv => P (snd kv)) l :=
    match l with
    | [] => Forall_nil _
    | kv :: l' =>
        Forall_cons (P := fun kv => P (snd kv)) kv
          (value_ind_nested (snd kv)) (go_items l')
    end in
  match v with
  | VNone => HNone
  | VInt z => HInt z
  | VStr s => HStr s
  | VNdarray e => HNdarray e
  | VTensor n e => HTensor n e
  | VList l => HList l (go l)
  | VTuple l => HTuple l (go l)
  | VNamedTuple n f l => HNamed n f l (go l)
  | VDict k items => HDict k items (go_items items)
  end.
End value_ind_nested.

(** ** Exceptions and the error monad *)

Inductive exn : Type :=
| TypeError (msg : string)
| ValueError (msg : string)
| KeyError (k : key)
| IndexError
| RecursionError.

Inductive result (A : Type) : Type :=
| Ok (a : A)
| Raise (e : exn).
Arguments Ok {A} a.
Arguments Raise {A} e.

Definition bind {A B : Type} (m : result A) (f : A -> result B) : result B :=
  match m with
  | Ok a => f a
  | Raise e => Raise e
  end.

Notation "x <- m ;; k" := (bind m (fun x => k))
  (at level 61, m at next level, right associativity).
Notation "' pat <- m ;; k" := (bind m (fun x => match x with pat => k end))
  (at level 61, pat pattern, m at next level, right associativity).

(** [[f(x) for x in xs]], stopping at the first exception. *)
Fixpoint mapM {A B : Type} (f : A -> result B) (xs : list A)
  : result (list B) :=
  match xs with
  | [] => Ok []
  | x :: xs' => y <- f x ;; ys <- mapM f xs' ;; Ok (y :: ys)
  end.

(** ** Host operations *)

(** [a < b] on keys: defined within [int] and within [str], a [TypeError]
    across the two. *)
Definition key_lt (a b : key) : result bool :=
  match a, b with
  | KInt x, KInt y => Ok (x <? y)%Z
  | KStr s, KStr t => Ok (String.ltb s t)
  | KInt _, KStr _ =>
      Raise (TypeError "'<' not supported between instances of 'int' and 'str'")
  | KStr _, KInt _ =>
      Raise (TypeError "'<' not supported between instances of 'str' and 'int'")
  end.

(** [sorted(xs)]: a stable comparison sort on [<]; an exception of a
    comparison leaves the sort. *)
Fixpoint insert_sorted (x : key) (l : list key) : result (list key) :=
  match l with
  | [] => Ok [x]
  | y :: l' =>
      lt <- key_lt x y ;;
      if lt then Ok (x :: y :: l')
      else (r <- insert_sorted x l' ;; Ok (y :: r))
  end.

Fixpoint sorted (l : list key) : result (list key) :=
  match l with
  | [] => Ok []
  | x :: l' => s <- sorted l' ;; insert_sorted x s
  end.

(** [six.iterkeys(d)]: the keys in native order. *)
Definition iterkeys (items : list (key * value)) : list key := map fst items.

(** [d[k]] on a dictionary. *)
Fixpoint dict_get (items : list (key * value)) (k : key) : result value :=
  match items with
  | [] => Raise (KeyError k)
  | (k', v) :: items' => if key_eqb k k' then Ok v else dict_get items' k
  end.

(** [d[k] = v]: replaces the value of a present key in place, appends an
    absent one. *)
Fixpoint dict_set (items : list (key * value)) (k : key) (v : value)
  : list (key * value) :=
  match items with
  | [] => [(k, v)]
  | (k', v') :: items' =>
      if key_eqb k k' then (k', v) :: items'
      else (k', v') :: dict_set items' k v
  end.

(** [dict(pairs)] and [OrderedDict(pairs)]: the pairs inserted in turn. *)
Definition dict_of_pairs (pairs : list (key * value)) : list (key * value) :=
  fold_left (fun d kv => dict_set d (fst kv) (snd kv)) pairs [].

(** [zip(xs, ys)] is [List.combine]: it stops with the shorter argument. *)
Definition zip {A B : Type} := @combine A B.

(** [iter(v)], as the list of what the iterator yields. *)
Definition chars (s : string) : list value :=
  map (fun c => VStr (String c EmptyString)) (list_ascii_of_string s).

Definition iter (v : value) : result (list value) :=
  match v with
  | VNone => Raise (TypeError "'NoneType' object is not iterable")
  | VInt _ => Raise (TypeError "'int' object is not iterable")
  | VStr s => Ok (chars s)
  | VNdarray None => Raise (TypeError "iteration over a 0-d array")
  | VNdarray (Some e) => Ok (map VInt e)
  | VTensor _ None => Raise (TypeError "'Tensor' object is not iterable.")
  | VTensor _ (Some e) => Ok (map VInt e)
  | VList l | VTuple l | VNamedTuple _ _ l => Ok l
  | VDict _ items => Ok (map value_of_key (iterkeys items))
  end.

(** [len(v)]. *)
Definition len (v : value) : result nat :=
  match v with
  | VNone => Raise (TypeError "object of type 'NoneType' has no len()")
  | VInt _ => Raise (TypeError "object of type 'int' has no len()")
  | VStr s => Ok (String.length s)
  | VNdarray None => Raise (TypeError "len() of unsized object")
  | VNdarray (Some e) => Ok (List.length e)
  | VTensor _ None => Raise (TypeError "object of type 'Tensor' has no len()")
  | VTensor _ (Some e) => Ok (List.length e)
  | VList l | VTuple l | VNamedTuple _ _ l => Ok (List.length l)
  | VDict _ items => Ok (List.length items)
  end.

(** [v[i]] for a natural number [i]: positional on sequences, a key lookup
    on a dictionary. *)
Definition nth_or_IndexError (l : list value) (i : nat) : result value :=
  match nth_error l i with
  | Some x => Ok x
  | None => Raise IndexError
  end.

Definition getitem (v : value) (i : nat) : result value :=
  match v with
  | VNone => Raise (TypeError "'NoneType' object is not subscriptable")
  | VInt _ => Raise (TypeError "'int' object is not subscriptable")
  | VStr s => nth_or_IndexError (chars s) i
  | VNdarray None => Raise IndexError
  | VNdarray (Some e) => nth_or_IndexError (map VInt e) i
  | VTensor _ None => Raise IndexError
  | VTensor _ (Some e) => nth_or_IndexError (map VInt e) i
  | VList l | VTuple l | VNamedTuple _ _ l => nth_or_IndexError l i
  | VDict _ items => dict_get items (KInt (Z.of_nat i))
  end.

Definition isinstance_string (v : value) : bool :=
  match v with VStr _ => true | _ => false end.

Definition isinstance_ndarray (v : value) : bool :=
  match v with VNdarray _ => true | _ => false end.

Definition isinstance_Tensor (v : value) : bool :=
  match v with VTensor _ _ => true | _ => false end.

Definition isinstance_dict (v : value) : bool :=
  match v with VDict _ _ => true | _ => false end.

(** What [is_iterable] may be handed: a value of the model, or an instance
    of some other class, known by what [iter] does on it.  The instance is
    an iterable when [iter] returns ([Ok]: a set, a generator, a user
    class with [__iter__]); it is not when [iter] raises [TypeError]; and
    its [__iter__] may raise any other exception. *)
Inductive pyobject : Type :=
| OValue (v : value)
| OInstance (classname : string) (iter_outcome : result (list value)).

Definition iter_object (o : pyobject) : result (list value) :=
  match o with
  | OValue v => iter v
  | OInstance _ r => r
  end.

Definition isinstance_string_object (o : pyobject) : bool :=
  match o with OValue v => isinstance_string v | OInstance _ _ => false end.

Definition isinstance_ndarray_object (o : pyobject) : bool :=
  match o with OValue v => isinstance_ndarray v | OInstance _ _ => false end.

Definition isinstance_Tensor_object (o : pyobject) : bool :=
  match o with OValue v => isinstance_Tensor v | OInstance _ _ => false end.

(** [%d] of a length. *)
Definition fmt_d (n : nat) : string := NilZero.string_of_uint (Nat.to_uint n).

(** ** The functions of nest.py *)

Section Nest.

(** [%s] of a value, the host's [str]; the traversals do not depend on it. *)
Variable str_of : value -> string.

Definition unsortable_msg : string :=
  "nest only supports dicts with sortable keys.".

(** Returns a sorted list from the dict, with error if keys not sortable. *)
Definition _sorted (dict_ : list (key * value)) : result (list key) :=
  match sorted (iterkeys dict_) with
  | Raise (TypeError _) => Raise (TypeError unsortable_msg)
  | r => r
  end.

(** Converts the sequence [args] to the same type as [instance].  The
    callers pass composites only; on a string [type(instance)(args)] is
    [str(args)], the other scalar constructors reject a list argument. *)
Definition _iterable_like (instance : value) (args : list value)
  : result value :=
  match instance with
  | VDict kind items =>
      ks <- _sorted items ;;
      let result := dict_of_pairs (zip ks args) in
      pairs <- mapM (fun key => v <- dict_get result key ;; Ok (key, v))
                    (iterkeys items) ;;
      Ok (VDict kind (dict_of_pairs pairs))
  | VNamedTuple typename _fields _ =>
      if (List.length args =? List.length _fields)%nat
      then Ok (VNamedTuple typename _fields args)
      else Raise (TypeError "__new__() got a wrong number of arguments")
  | VTuple _ => Ok (VTuple args)
  | VList _ => Ok (VList args)
  | VStr _ => Ok (VStr (str_of (VList args)))
  | VNone => Raise (TypeError "NoneType takes no arguments")
  | VInt _ => Raise (TypeError "int() argument must be a string or a number")
  | VNdarray _ => Raise (TypeError "expected a sequence of integers")
  | VTensor _ _ => Raise (TypeError "__init__() missing required arguments")
  end.

Definition _yield_value_from_iterable (iterable : value)
  : result (list value) :=
  match iterable with
  | VDict _ items =>
      ks <- _sorted items ;;
      mapM (fun key => dict_get items key) ks
  | _ => iter iterable
  end.

(** Returns true if [seq] is iterable (apart from strings). *)
Definition is_iterable (seq : value) : result bool :=
  if isinstance_string seq || isinstance_ndarray seq || isinstance_Tensor seq
  then Ok false
  else match iter seq with
       | Ok _ => Ok true
       | Raise (TypeError _) => Ok false
       | Raise e => Raise e
       end.

(** [is_iterable] on any object: the same body, on the values of the model
    [is_iterable] itself. *)
Definition is_iterable_object (seq : pyobject) : result bool :=
  if isinstance_string_object seq || isinstance_ndarray_object seq
     || isinstance_Tensor_object seq
  then Ok false
  else match iter_object seq with
       | Ok _ => Ok true
       | Raise (TypeError _) => Ok false
       | Raise e => Raise e
       end.

(** The recursion of the generator is on [fuel], the depth allowed; the
    entry points give it the depth of their argument. *)
Fixpoint _yield_flat_nest_from_iterable (fuel : nat) (iterable : value)
  : result (list value) :=
  match fuel with
  | O => Raise RecursionError
  | S fuel' =>
      ns <- _yield_value_from_iterable iterable ;;
      nis <- mapM (fun n =>
                     b <- is_iterable n ;;
                     if b then _yield_flat_nest_from_iterable fuel' n
                     else Ok [n]) ns ;;
      Ok (List.concat nis)
  end.

(** Returns a flat list from a given nested structure. *)
Definition flatten_iterable (structure : value) : result (list value) :=
  b <- is_iterable structure ;;
  if b then _yield_flat_nest_from_iterable (depth structure) structure
  else Ok [structure].

(** The body of the [for s in ...] loop of the packing helper, with
    [index] and [packed] as loop state and [rec] the recursive call. *)
Fixpoint pack_loop (rec : value -> nat -> result (nat * list value))
  (flat : value) (ss : list value) (index : nat) (packed : list value)
  : result (nat * list value) :=
  match ss with
  | [] => Ok (index, packed)
  | s :: ss' =>
      b <- is_iterable s ;;
      if b then
        ' (new_index, child) <- rec s index ;;
        c <- _iterable_like s child ;;
        pack_loop rec flat ss' new_index (packed ++ [c])
      else
        x <- getitem flat index ;;
        pack_loop rec flat ss' (index + 1) (packed ++ [x])
  end.

(** Helper function for pack_nest_as: returns [(new_index, packed)]. *)
Fixpoint _packed_iterable_nest_with_indices (fuel : nat)
  (structure flat : value) (index : nat) : result (nat * list value) :=
  match fuel with
  | O => Raise RecursionError
  | S fuel' =>
      ss <- _yield_value_from_iterable structure ;;
      pack_loop (fun s i => _packed_iterable_nest_with_indices fuel' s flat i)
                flat ss index []
  end.

Definition not_iterable_msg : string := "flat_iterable must be an iterable".

Definition scalar_msg (n : nat) : string :=
  "Structure is a scalar but len(flat_iterable) == " ++ fmt_d n ++ " > 1".

Definition arity_msg (n m : nat) (structure flat_iterable : value) : string :=
  "Could not pack iterable. Structure had " ++ fmt_d n
  ++ " elements, but flat_iterable had " ++ fmt_d m
  ++ " elements.  Structure: " ++ str_of structure
  ++ ", flat_iterable: " ++ str_of flat_iterable ++ ".".

(** Returns a given flattened sequence packed into a given structure. *)
Definition pack_iterable_as (structure flat_iterable : value) : result value :=
  fi <- is_iterable flat_iterable ;;
  if negb fi then Raise (TypeError not_iterable_msg) else
  si <- is_iterable structure ;;
  if negb si then
    n <- len flat_iterable ;;
    if negb (n =? 1)%nat then Raise (ValueError (scalar_msg n))
    else getitem flat_iterable 0
  else
    flat_structure <- flatten_iterable structure ;;
    n <- len flat_iterable ;;
    if negb (List.length flat_structure =? n)%nat
    then Raise (ValueError
                  (arity_msg (List.length flat_structure) n
                     structure flat_iterable))
    else
      ' (_, packed) <-
        _packed_iterable_nest_with_indices (depth structure)
          structure flat_iterable 0 ;;
      _iterable_like structure packed.

End Nest.

(** ** Predicates of the specification *)

(** The container kinds of the model: what [is_iterable] accepts. *)
Definition composite (v : value) : bool :=
  match v with
  | VList _ | VTuple _ | VNamedTuple _ _ _ | VDict _ _ => true
  | _ => false
  end.

(** [isinstance(k, int)] on a key. *)
Definition is_int (k : key) : bool :=
  match k with KInt _ => true | KStr _ => false end.

(** Two keys can be compared when both are [int] or both are [str]. *)
Definition comparable (a b : key) : bool := Bool.eqb (is_int a) (is_int b).

(** Every two keys of the list can be compared. *)
Fixpoint pairwise_comparable (l : list key) : bool :=
  match l with
  | [] => true
  | x :: l' => forallb (comparable x) l' && pairwise_comparable l'
  end.

(** [a < b] evaluates to [True]. *)
Definition key_before (a b : key) : Prop := key_lt a b = Ok true.

(** No key occurs twice. *)
Fixpoint nodup_keys (l : list key) : bool :=
  match l with
  | [] => true
  | x :: l' => negb (existsb (key_eqb x) l') && nodup_keys l'
  end.

(** What every Python value satisfies and a list of items need not: the
    keys of a dictionary are distinct, a namedtuple has one element per
    field. *)
Fixpoint well_formed (v : value) : bool :=
  match v with
  | VList l | VTuple l => forallb well_formed l
  | VNamedTuple _ _fields l =>
      (List.length _fields =? List.length l)%nat && forallb well_formed l
  | VDict _ items =>
      nodup_keys (iterkeys items)
      && forallb (fun kv => well_formed (snd kv)) items
  | _ => true
  end.

(** Every dictionary of the structure, at any depth, has pairwise
    comparable keys. *)
Fixpoint sortable (v : value) : bool :=
  match v with
  | VList l | VTuple l | VNamedTuple _ _ l => forallb sortable l
  | VDict _ items =>
      pairwise_comparable (iterkeys items)
      && forallb (fun kv => sortable (snd kv)) items
  | _ => true
  end.

(** The traversals with the fuel of the entry points. *)
Definition flat_nest (v : value) : result (list value) :=
  _yield_flat_nest_from_iterable (depth v) v.

Definition packed_nest str_of (flat v : value) (index : nat)
  : result (nat * list value) :=
  _packed_iterable_nest_with_indices str_of (depth v) v flat index.

(** The outcome of flattening one structure. *)
Definition flatten_outcome (v : value) : Prop :=
  if sortable v then exists leaves, flatten_iterable v = Ok leaves
  else flatten_iterable v = Raise (TypeError unsortable_msg).

(** [flat[index + i]] is the [i]-th of [leaves]. *)
Definition has_at (flat : value) (index : nat) (leaves : list value) : Prop :=
  forall i x, nth_error leaves i = Some x -> getitem flat (index + i) = Ok x.

(** What the helper returns on a composite whose leaves lie in [flat] from
    [index] on. *)
Definition packs_back (rec : value -> nat -> result (nat * list value))
  (flat s : value) : Prop :=
  forall index leaves,
    flat_nest s = Ok leaves -> has_at flat index leaves ->
    exists cs, _yield_value_from_iterable s = Ok cs /\
               rec s index = Ok (index + List.length leaves, cs).

(** The children of a composite in the order the specification gives:
    positional for sequences and records, ascending by key for
    mappings. *)
Inductive visit_order : value -> list value -> Prop :=
| visit_list l : visit_order (VList l) l
| visit_tuple l : visit_order (VTuple l) l
| visit_namedtuple tn fs l : visit_order (VNamedTuple tn fs l) l
| visit_dict kind items items' :
    Permutation items items' ->
    StronglySorted key_before (iterkeys items') ->
    visit_order (VDict kind items) (map snd items').

#[local] Unset Elimination Schemes.

(** Depth-first, left-to-right: a leaf is its own only leaf, a composite
    has the leaves of its children in visiting order, one child after the
    other. *)
Inductive dfs_order : value -> list value -> Prop :=
| dfs_leaf v : composite v = false -> dfs_order v [v]
| dfs_node v ns nis :
    composite v = true ->
    visit_order v ns ->
    Forall2 dfs_order ns nis ->
    dfs_order v (List.concat nis).

#[local] Set Elimination Schemes.

(** The item a key stands for. *)
Definition item_of (items : list (key * value)) (k : key) : key * value :=
  (k, match dict_get items k with Ok v => v | Raise _ => VNone end).

(** [sub in s]. *)
Definition contains (sub s : string) : Prop :=
  exists pre post, s = (pre ++ sub ++ post)%string.

(** The elements of a list, a tuple or a namedtuple. *)
Definition sequence_elems (v : value) : option (list value) :=
  match v with
  | VList l | VTuple l | VNamedTuple _ _ l => Some l
  | _ => None
  end.

(** The nested example of the specification:
    [["a", {"y": 2, "x": 1}, ("b", "c")]]. *)
Definition example_nested : value :=
  VList [VStr "a";
         VDict PlainDict [(KStr "y", VInt 2); (KStr "x", VInt 1)];
         VTuple [VStr "b"; VStr "c"]].

(** A namedtuple over an [OrderedDict] out of key order, a tuple, an
    ndarray, a tensor and an empty list. *)
Definition example_record : value :=
  VNamedTuple "Point" ["x"; "y"]
    [VDict OrderedDict [(KInt 3, VList [VInt 30; VNone]); (KInt 1, VStr "one")];
     VTuple [VNdarray (Some [1; 2]%Z); VTensor "t" None; VList []]].

(** An instance of [class Bad] whose [__iter__] raises [ValueError]. *)
Definition bad_object : pyobject :=
  OInstance "Bad" (Raise (ValueError "boom")).

(** A set, as [iter] sees it. *)
Definition set_object : pyobject :=
  OInstance "set" (Ok [VInt 1; VInt 2]).

(** A rendering for the examples. *)
Definition no_str : value -> string := fun _ => EmptyString.

(** A value no traversal enters. *)
Definition leaf_item (kv : key * value) : Prop := composite (snd kv) = false.

(** The items of [OrderedDict([("b", 2), ("a", 1)])] and of
    [{"a": None, "b": None}]. *)
Definition ordered_ba : list (key * value) :=
  [(KStr "b", VInt 2); (KStr "a", VInt 1)].

Definition plain_ab : list (key * value) :=
  [(KStr "a", VNone); (KStr "b", VNone)].

(** The number of leaves of a structure, counted along its native
    layout. *)
Fixpoint count_leaves (v : value) : nat :=
  match v with
  | VList l | VTuple l | VNamedTuple _ _ l => list_sum (map count_leaves l)
  | VDict _ items => list_sum (map (fun kv => count_leaves (snd kv)) items)
  | _ => 1
  end.

(** The structure with every leaf blanked: container kinds, nesting, field
    names and keys in native order. *)
Fixpoint shape (v : value) : value :=
  match v with
  | VList l => VList (map shape l)
  | VTuple l => VTuple (map shape l)
  | VNamedTuple tn fs l => VNamedTuple tn fs (map shape l)
  | VDict kind items =>
      VDict kind (map (fun kv => (fst kv, shape (snd kv))) items)
  | _ => VNone
  end.

(** A value [is_iterable] rejects. *)
Definition leaf (v : value) : Prop := composite v = false.

(** What packing the values [xs] into the template [s] gave in [r]: [r]
    flattens to what the values flatten to, has the shape of the template
    when the values are leaves, and is a Python value when they are. *)
Definition packed_like (s r : value) (xs : list value) : Prop :=
  (forall xss, mapM flatten_iterable xs = Ok xss ->
               flatten_iterable r = Ok (List.concat xss))
  /\ (Forall leaf xs -> shape r = shape s)
  /\ (Forall (fun x => well_formed x = true) xs -> well_formed r = true).

(** The same for the children [ss] of a template and what was built for
    them. *)
Definition packed_likes (ss rs xs : list value) : Prop :=
  List.length rs = List.length ss
  /\ (forall xss, mapM flatten_iterable xs = Ok xss ->
        exists rss, mapM flatten_iterable rs = Ok rss /\
                    List.concat rss = List.concat xss)
  /\ (Forall leaf xs -> map shape rs = map shape ss)
  /\ (Forall (fun x => well_formed x = true) xs ->
      Forall (fun r => well_formed r = true) rs).

(** The helper on a composite [s], given as many values from [index] on as
    [s] has leaves. *)
Definition packs_any str_of
  (rec : value -> nat -> result (nat * list value)) (flat s : value) : Prop :=
  forall index xs leaves,
    flat_nest s = Ok leaves -> List.length xs = List.length leaves ->
    has_at flat index xs ->
    exists rs r,
      rec s index = Ok (index + List.length xs, rs) /\
      _iterable_like str_of s rs = Ok r /\
      composite r = true /\
      packed_like s r xs.

(** The helper on a composite [s], where [flat] gives out before the
    leaves of [s] do. *)
Definition packs_fail
  (rec : value -> nat -> result (nat * list value)) (flat s : value) : Prop :=
  forall index xs leaves e,
    flat_nest s = Ok leaves -> List.length xs < List.length leaves ->
    has_at flat index xs ->
    getitem flat (index + List.length xs) = Raise e ->
    rec s index = Raise e.

(** ** Classification *)

Lemma is_iterable_composite (v : value) : is_iterable v = Ok (composite v).
Proof. destruct v as [ | | |[?|]|?[?|]| | | | ]; reflexivity. Qed.

(** ** Keys and their order *)

Lemma comparable_refl a : comparable a a = true.
Proof. destruct a; reflexivity. Qed.

Lemma comparable_sym a b : comparable a b = comparable b a.
Proof. destruct a, b; reflexivity. Qed.

Lemma comparable_trans a b c :
  comparable a b = true -> comparable b c = true -> comparable a c = true.
Proof. destruct a, b, c; cbv; congruence. Qed.

Lemma incomparable_trans a b c :
  comparable a b = false -> comparable b c = true -> comparable a c = false.
Proof. destruct a, b, c; cbv; congruence. Qed.

Lemma key_lt_comparable a b :
  comparable a b = true -> exists r, key_lt a b = Ok r.
Proof. destruct a, b; cbv; try discriminate; eauto. Qed.

Lemma key_lt_incomparable a b :
  comparable a b = false -> exists msg, key_lt a b = Raise (TypeError msg).
Proof. destruct a, b; cbv; try discriminate; eauto. Qed.

Lemma key_before_comparable a b : key_before a b -> comparable a b = true.
Proof. destruct a, b; unfold key_before; cbv; congruence. Qed.

Lemma string_ltb_lt s t : String.ltb s t = true <-> String_as_OT.lt s t.
Proof.
  rewrite <- String_as_OT.cmp_lt. unfold String.ltb, String_as_OT.cmp.
  destruct (String.compare s t); split; intros H; congruence.
Qed.

Lemma key_before_trans a b c :
  key_before a b -> key_before b c -> key_before a c.
Proof.
  unfold key_before. destruct a, b, c; simpl; try discriminate.
  - intros H1 H2. injection H1 as H1. injection H2 as H2. f_equal. lia.
  - intros H1 H2. injection H1 as H1. injection H2 as H2. f_equal.
    apply string_ltb_lt. apply string_ltb_lt in H1, H2.
    eapply String_as_OT.lt_trans; eassumption.
Qed.

Lemma key_before_irrefl a : ~ key_before a a.
Proof.
  unfold key_before. destruct a; simpl; intros H; injection H as H.
  - lia.
  - apply string_ltb_lt in H.
    exact (String_as_OT.lt_not_eq _ _ H eq_refl).
Qed.

(** The order is total on comparable keys. *)
Lemma key_lt_false a b :
  key_lt a b = Ok false -> a <> b -> key_before b a.
Proof.
  unfold key_before. destruct a, b; simpl; try discriminate.
  - intros H Hne. injection H as H. f_equal.
    assert (z <> z0) by congruence. lia.
  - intros H Hne. injection H as H. f_equal.
    unfold String.ltb in *. rewrite String.compare_antisym.
    destruct (String.compare s s0) eqn:E; simpl; try reflexivity;
      try discriminate.
    apply String.compare_eq_iff in E. congruence.
Qed.

(** ** [sorted] *)

Lemma pairwise_comparable_In l :
  pairwise_comparable l = true <->
  (forall a b, In a l -> In b l -> comparable a b = true).
Proof.
  induction l as [|x l IH]; simpl.
  - split; [intros _ a b [] | reflexivity].
  - rewrite andb_true_iff, forallb_forall, IH. split.
    + intros [Hx Hl] a b [<-|Ha] [<-|Hb]; auto using comparable_refl.
      rewrite comparable_sym. auto.
    + intros H. split; intros; apply H; auto.
Qed.

Lemma pairwise_comparable_perm l1 l2 :
  Permutation l1 l2 -> pairwise_comparable l1 = pairwise_comparable l2.
Proof.
  intros HP. apply eq_true_iff_eq. rewrite !pairwise_comparable_In.
  split; intros H a b Ha Hb; apply H;
    eauto using Permutation_in, Permutation_sym.
Qed.

Lemma insert_sorted_ok x l :
  forallb (comparable x) l = true ->
  exists r, insert_sorted x l = Ok r /\ Permutation (x :: l) r.
Proof.
  induction l as [|y l IH]; simpl; intros H.
  - eauto.
  - apply andb_true_iff in H as [Hy Hl].
    destruct (key_lt_comparable _ _ Hy) as [[|] ->]; simpl.
    + eauto.
    + destruct (IH Hl) as (r & -> & HP). simpl.
      eexists; split; [reflexivity|].
      rewrite perm_swap. auto.
Qed.

Lemma insert_sorted_raise x y l :
  comparable x y = false ->
  exists msg, insert_sorted x (y :: l) = Raise (TypeError msg).
Proof.
  intros H. simpl. destruct (key_lt_incomparable _ _ H) as [msg ->].
  simpl. eauto.
Qed.

Lemma sorted_ok l :
  pairwise_comparable l = true ->
  exists r, sorted l = Ok r /\ Permutation l r.
Proof.
  induction l as [|x l IH]; simpl; intros H.
  - eauto.
  - apply andb_true_iff in H as [Hx Hl].
    destruct (IH Hl) as (s & -> & HP). simpl.
    destruct (insert_sorted_ok x s) as (r & Hr & HP').
    + rewrite forallb_forall in *. intros y Hy. apply Hx.
      eapply Permutation_in; [apply Permutation_sym|]; eassumption.
    + exists r. split; [assumption|].
      rewrite <- HP'. auto.
Qed.

Lemma sorted_raise l :
  pairwise_comparable l = false ->
  exists msg, sorted l = Raise (TypeError msg).
Proof.
  induction l as [|x l IH]; simpl; intros H; [discriminate|].
  destruct (pairwise_comparable l) eqn:Hl.
  - rewrite andb_true_r in H.
    destruct (sorted_ok l Hl) as (s & -> & HP). simpl.
    assert (exists z, In z l /\ comparable x z = false) as (z & Hz & Hxz).
    { clear -H. induction l as [|y l IH]; simpl in *; [discriminate|].
      destruct (comparable x y) eqn:E; eauto.
      destruct (IH H) as (z & ? & ?). eauto. }
    destruct s as [|y s].
    { apply Permutation_sym, Permutation_nil in HP. subst l. destruct Hz. }
    apply insert_sorted_raise.
    eapply incomparable_trans; [exact Hxz|].
    apply (proj1 (pairwise_comparable_In l) Hl); [assumption|].
    eapply Permutation_in; [apply Permutation_sym; exact HP|]. now left.
  - destruct (IH eq_refl) as [msg ->]. simpl. eauto.
Qed.

Lemma insert_sorted_sorted x s r :
  StronglySorted key_before s -> ~ In x s ->
  insert_sorted x s = Ok r -> StronglySorted key_before r.
Proof.
  revert r. induction s as [|y s IH]; simpl; intros r Hs Hx Hr.
  - injection Hr as <-. repeat constructor.
  - destruct (key_lt x y) as [[|]|] eqn:E; simpl in Hr; try discriminate.
    + injection Hr as <-. constructor; [assumption|].
      inversion Hs as [|? ? Hs' Hall]; subst. constructor; [exact E|].
      eapply Forall_impl; [|exact Hall].
      intros a Ha. eapply key_before_trans; eassumption.
    + destruct (insert_sorted x s) as [r'|] eqn:E'; simpl in Hr;
        try discriminate.
      injection Hr as <-.
      inversion Hs as [|? ? Hs' Hall]; subst.
      assert (Hyx : key_before y x) by (apply key_lt_false; intuition).
      constructor.
      * apply IH; intuition.
      * destruct (insert_sorted_ok x s) as (r'' & Hr'' & HP).
        { apply forallb_forall. intros a Ha.
          rewrite Forall_forall in Hall.
          eapply comparable_trans;
            [rewrite comparable_sym|]; eauto using key_before_comparable. }
        rewrite E' in Hr''. injection Hr'' as <-.
        eapply Permutation_Forall; [exact HP|].
        constructor; assumption.
Qed.

Lemma sorted_sorted l r :
  NoDup l -> sorted l = Ok r -> StronglySorted key_before r.
Proof.
  revert r. induction l as [|x l IH]; simpl; intros r Hnd Hr.
  - injection Hr as <-. constructor.
  - destruct (sorted l) as [s|] eqn:E; simpl in Hr; try discriminate.
    inversion Hnd; subst.
    eapply insert_sorted_sorted; [apply IH; auto| |exact Hr].
    destruct (pairwise_comparable l) eqn:Hl.
    + destruct (sorted_ok l Hl) as (s' & Hs' & HP).
      rewrite E in Hs'. injection Hs' as <-.
      intros Hin. eapply Permutation_in in Hin;
        [|apply Permutation_sym; exact HP]. contradiction.
    + destruct (sorted_raise l Hl) as [msg Hmsg]. congruence.
Qed.

Lemma sorted_perm l r : sorted l = Ok r -> Permutation l r.
Proof.
  intros H. destruct (pairwise_comparable l) eqn:Hl.
  - destruct (sorted_ok l Hl) as (r' & Hr' & HP). congruence.
  - destruct (sorted_raise l Hl) as [msg Hmsg]. congruence.
Qed.

(** A strictly ascending list is determined by its elements. *)
Lemma sorted_unique l1 l2 :
  StronglySorted key_before l1 -> StronglySorted key_before l2 ->
  Permutation l1 l2 -> l1 = l2.
Proof.
  revert l2. induction l1 as [|a l1 IH]; intros l2 H1 H2 HP.
  - apply Permutation_nil in HP. now subst.
  - destruct l2 as [|b l2].
    { apply Permutation_sym, Permutation_nil in HP. discriminate. }
    inversion H1 as [|? ? H1' Ha]; subst.
    inversion H2 as [|? ? H2' Hb]; subst.
    rewrite Forall_forall in Ha, Hb.
    assert (a = b) as <-.
    { assert (Hab : In a (b :: l2))
        by (eapply Permutation_in; [exact HP|now left]).
      assert (Hba : In b (a :: l1))
        by (eapply Permutation_in; [apply Permutation_sym; exact HP|now left]).
      destruct Hab as [->|Hab]; [reflexivity|].
      destruct Hba as [->|Hba]; [reflexivity|].
      exfalso. apply (key_before_irrefl a).
      eapply key_before_trans; [apply Ha|apply Hb]; assumption. }
    f_equal. apply IH; auto. eapply Permutation_cons_inv; eassumption.
Qed.

Lemma sorted_perm_invariant l1 l2 r :
  NoDup l1 -> Permutation l1 l2 -> sorted l1 = Ok r -> sorted l2 = Ok r.
Proof.
  intros Hnd HP H1.
  assert (Hpc : pairwise_comparable l2 = true).
  { rewrite <- (pairwise_comparable_perm _ _ HP).
    destruct (pairwise_comparable l1) eqn:E; [reflexivity|].
    destruct (sorted_raise l1 E) as [msg Hmsg]. congruence. }
  destruct (sorted_ok l2 Hpc) as (r2 & H2 & HP2).
  rewrite H2. f_equal. symmetry.
  apply sorted_unique.
  - eapply sorted_sorted; eassumption.
  - eapply sorted_sorted; [|exact H2].
    eapply Permutation_NoDup; eassumption.
  - rewrite <- (sorted_perm _ _ H1), <- HP2. exact HP.
Qed.

Lemma _sorted_ok items :
  pairwise_comparable (iterkeys items) = true ->
  exists ks, _sorted items = Ok ks /\ Permutation (iterkeys items) ks.
Proof.
  intros H. destruct (sorted_ok _ H) as (ks & Hks & HP).
  exists ks. unfold _sorted. now rewrite Hks.
Qed.

Lemma _sorted_raise items :
  pairwise_comparable (iterkeys items) = false ->
  _sorted items = Raise (TypeError unsortable_msg).
Proof.
  intros H. destruct (sorted_raise _ H) as (msg & Hmsg).
  unfold _sorted. now rewrite Hmsg.
Qed.

Lemma _sorted_inv items ks :
  _sorted items = Ok ks ->
  sorted (iterkeys items) = Ok ks /\
  pairwise_comparable (iterkeys items) = true.
Proof.
  intros H. destruct (pairwise_comparable (iterkeys items)) eqn:E.
  - split; [|reflexivity]. unfold _sorted in H.
    destruct (sorted (iterkeys items)) as [?|[]]; congruence.
  - rewrite (_sorted_raise _ E) in H. discriminate.
Qed.

Lemma _sorted_perm items ks :
  _sorted items = Ok ks -> Permutation (iterkeys items) ks.
Proof. intros H. apply sorted_perm. now apply _sorted_inv. Qed.

(** ** Lists in the error monad *)

Lemma mapM_ext_in {A B} (f g : A -> result B) l :
  (forall x, In x l -> f x = g x) -> mapM f l = mapM g l.
Proof.
  induction l as [|x l IH]; simpl; intros H; [reflexivity|].
  rewrite (H x) by now left. rewrite IH; [reflexivity|]. auto.
Qed.

Lemma mapM_Ok_inv {A B} (f : A -> result B) l r :
  mapM f l = Ok r -> Forall2 (fun x y => f x = Ok y) l r.
Proof.
  revert r. induction l as [|x l IH]; simpl; intros r H.
  - injection H as <-. constructor.
  - destruct (f x) eqn:E; simpl in H; try discriminate.
    destruct (mapM f l) eqn:E'; simpl in H; try discriminate.
    injection H as <-. constructor; auto.
Qed.

Lemma mapM_Forall2 {A B} (f : A -> result B) l r :
  Forall2 (fun x y => f x = Ok y) l r -> mapM f l = Ok r.
Proof.
  induction 1 as [|x y l r Hxy _ IH]; simpl; [reflexivity|].
  now rewrite Hxy, IH.
Qed.

Lemma mapM_In {A B} (f : A -> result B) l r y :
  mapM f l = Ok r -> In y r -> exists x, In x l /\ f x = Ok y.
Proof.
  intros H. apply mapM_Ok_inv in H.
  induction H as [|x y' l r Hxy _ IH]; simpl; intros Hy; [destruct Hy|].
  destruct Hy as [<-|Hy]; [eauto|].
  destruct (IH Hy) as (x' & ? & ?). eauto.
Qed.

Lemma mapM_length {A B} (f : A -> result B) l r :
  mapM f l = Ok r -> List.length r = List.length l.
Proof.
  intros H. apply mapM_Ok_inv in H. symmetry.
  eapply Forall2_length; eassumption.
Qed.

(** ** Dictionaries *)

Lemma key_eqb_eq a b : key_eqb a b = true <-> a = b.
Proof. unfold key_eqb. destruct (key_eq_dec a b); split; congruence. Qed.

Lemma key_eqb_refl a : key_eqb a a = true.
Proof. now apply key_eqb_eq. Qed.

Lemma key_eqb_neq a b : key_eqb a b = false <-> a <> b.
Proof. unfold key_eqb. destruct (key_eq_dec a b); split; congruence. Qed.

Lemma dict_get_In items k v : dict_get items k = Ok v -> In (k, v) items.
Proof.
  induction items as [|[k' v'] items IH]; simpl; [discriminate|].
  destruct (key_eqb k k') eqn:E.
  - apply key_eqb_eq in E as ->. intros [= ->]. now left.
  - auto.
Qed.

Lemma dict_get_key items k :
  In k (iterkeys items) -> exists v, dict_get items k = Ok v.
Proof.
  induction items as [|[k' v'] items IH]; simpl; [intros []|].
  destruct (key_eqb k k') eqn:E; [eauto|].
  apply key_eqb_neq in E. intros [?|?]; [congruence|auto].
Qed.

Lemma dict_get_NoDup items k v :
  NoDup (iterkeys items) -> In (k, v) items -> dict_get items k = Ok v.
Proof.
  induction items as [|[k' v'] items IH]; simpl; [intros _ []|].
  intros Hnd Hin. inversion Hnd as [|? ? Hk' Hnd']; subst.
  destruct Hin as [[= -> ->]|Hin].
  - now rewrite key_eqb_refl.
  - destruct (key_eqb k k') eqn:E; [|auto].
    apply key_eqb_eq in E as ->. exfalso. apply Hk'.
    unfold iterkeys. change k' with (fst (k', v)). now apply in_map.
Qed.

Lemma dict_set_fresh items k v :
  ~ In k (iterkeys items) -> dict_set items k v = items ++ [(k, v)].
Proof.
  induction items as [|[k' v'] items IH]; simpl; intros H; [reflexivity|].
  destruct (key_eqb k k') eqn:E.
  - apply key_eqb_eq in E. exfalso. apply H. now left.
  - rewrite IH; [reflexivity|]. intros Hin. apply H. now right.
Qed.

Lemma dict_of_pairs_NoDup pairs :
  NoDup (iterkeys pairs) -> dict_of_pairs pairs = pairs.
Proof.
  unfold dict_of_pairs.
  enough (forall acc, NoDup (iterkeys (acc ++ pairs)) ->
            fold_left (fun d kv => dict_set d (fst kv) (snd kv)) pairs acc
            = acc ++ pairs) as H by (intros; now apply (H [])).
  induction pairs as [|[k v] pairs IH]; simpl; intros acc Hnd.
  - now rewrite app_nil_r.
  - rewrite dict_set_fresh.
    + rewrite IH; rewrite <- app_assoc; [reflexivity|exact Hnd].
    + unfold iterkeys in Hnd. rewrite map_app in Hnd. simpl in Hnd.
      apply NoDup_remove_2 in Hnd. intros Hin. apply Hnd.
      apply in_or_app. now left.
Qed.

(** Looking up the [zip] of keys and the values looked up for them. *)
Lemma dict_get_zip_mapM items ks cs k :
  mapM (fun key => dict_get items key) ks = Ok cs ->
  In k ks -> dict_get (zip ks cs) k = dict_get items k.
Proof.
  revert cs. induction ks as [|k' ks IH]; simpl; intros cs H Hin;
    [destruct Hin|].
  destruct (dict_get items k') eqn:E; simpl in H; try discriminate.
  destruct (mapM _ ks) eqn:E'; simpl in H; try discriminate.
  injection H as <-. simpl.
  destruct (key_eqb k k') eqn:Ek.
  - apply key_eqb_eq in Ek as ->. now rewrite E.
  - apply key_eqb_neq in Ek. destruct Hin as [?|Hin]; [congruence|].
    now apply IH.
Qed.

Lemma iterkeys_zip (ks : list key) (cs : list value) :
  List.length ks = List.length cs -> iterkeys (zip ks cs) = ks.
Proof.
  revert cs. induction ks as [|k ks IH]; destruct cs; simpl;
    try discriminate; [reflexivity|].
  intros [= H]. now rewrite IH.
Qed.

(** ** Structures *)

Lemma nodup_keys_NoDup l : nodup_keys l = true <-> NoDup l.
Proof.
  induction l as [|x l IH]; simpl.
  - split; [constructor|reflexivity].
  - rewrite andb_true_iff, negb_true_iff, IH. split.
    + intros [Hx Hl]. constructor; [|assumption].
      intros Hin. apply not_true_iff_false in Hx. apply Hx.
      apply existsb_exists. exists x. split; [assumption|apply key_eqb_refl].
    + intros H. inversion H as [|? ? Hx Hl]; subst. split; [|assumption].
      apply not_true_iff_false. intros He.
      apply existsb_exists in He as (y & Hy & Hxy).
      apply key_eqb_eq in Hxy as <-. contradiction.
Qed.

(** The children a traversal visits, where the keys can be sorted. *)
Lemma children_dict_In kind items ns n :
  _yield_value_from_iterable (VDict kind items) = Ok ns ->
  In n ns -> exists k, In (k, n) items.
Proof.
  simpl. intros H Hn.
  destruct (_sorted items) as [ks|]; simpl in H; try discriminate.
  destruct (mapM_In _ _ _ _ H Hn) as (k & _ & Hk).
  exists k. now apply dict_get_In.
Qed.

Lemma depth_list_le n l : In n l -> depth n <= list_max (map depth l).
Proof.
  intros H. assert (Hle := proj1 (list_max_le (map depth l) _) (le_n _)).
  rewrite Forall_forall in Hle. apply Hle. now apply in_map.
Qed.

Lemma depth_items_le k n (items : list (key * value)) :
  In (k, n) items ->
  depth n <= list_max (map (fun kv => depth (snd kv)) items).
Proof.
  intros H.
  assert (Hle := proj1 (list_max_le (map (fun kv => depth (snd kv)) items) _)
                   (le_n _)).
  rewrite Forall_forall in Hle. apply Hle.
  change (depth n) with ((fun kv : key * value => depth (snd kv)) (k, n)).
  now apply in_map.
Qed.

Lemma children_depth v ns n :
  composite v = true -> _yield_value_from_iterable v = Ok ns ->
  In n ns -> depth n < depth v.
Proof.
  intros Hc H Hn.
  destruct v as [ | | | | |l|l|? ? l|kind items]; try discriminate;
    try (simpl in H; injection H as <-; simpl;
         apply Nat.lt_succ_r, depth_list_le; assumption).
  destruct (children_dict_In _ _ _ _ H Hn) as (k & Hk). simpl.
  eapply Nat.lt_succ_r, depth_items_le. eassumption.
Qed.

Lemma children_well_formed v ns n :
  well_formed v = true -> _yield_value_from_iterable v = Ok ns ->
  In n ns -> well_formed n = true.
Proof.
  intros Hw H Hn.
  destruct v as [ | |s|[e|]|? [e|]|l|l|? ? l|kind items]; simpl in H;
    try discriminate; try injection H as <-.
  - unfold chars in Hn. apply in_map_iff in Hn as (c & <- & _). reflexivity.
  - apply in_map_iff in Hn as (c & <- & _). reflexivity.
  - apply in_map_iff in Hn as (c & <- & _). reflexivity.
  - simpl in Hw. rewrite forallb_forall in Hw. auto.
  - simpl in Hw. rewrite forallb_forall in Hw. auto.
  - simpl in Hw. apply andb_true_iff in Hw as [_ Hw].
    rewrite forallb_forall in Hw. auto.
  - destruct (children_dict_In kind items ns n) as (k & Hk); [exact H|exact Hn|].
    simpl in Hw. apply andb_true_iff in Hw as [_ Hw].
    rewrite forallb_forall in Hw. exact (Hw _ Hk).
Qed.

(** ** Enough fuel *)

Lemma _yield_flat_nest_fuel fuel :
  forall v, composite v = true -> depth v <= fuel ->
  _yield_flat_nest_from_iterable fuel v
  = _yield_flat_nest_from_iterable (depth v) v.
Proof.
  induction fuel as [fuel IH] using lt_wf_ind. intros v Hc Hd.
  destruct (depth v) as [|d] eqn:Ed.
  { destruct v; discriminate. }
  destruct fuel as [|fuel]; [lia|]. simpl.
  destruct (_yield_value_from_iterable v) as [ns|] eqn:Ens; [|reflexivity].
  simpl. f_equal. apply mapM_ext_in.
  intros n Hn. rewrite is_iterable_composite. simpl.
  destruct (composite n) eqn:Hcn; [|reflexivity].
  assert (depth n < depth v) by (eapply children_depth; eassumption).
  rewrite (IH fuel), (IH d); auto; lia.
Qed.

Lemma pack_loop_ext str_of rec1 rec2 flat ss :
  (forall s i, In s ss -> composite s = true -> rec1 s i = rec2 s i) ->
  forall index packed,
    pack_loop str_of rec1 flat ss index packed
    = pack_loop str_of rec2 flat ss index packed.
Proof.
  induction ss as [|s ss IH]; simpl; intros H index packed; [reflexivity|].
  rewrite is_iterable_composite. simpl.
  destruct (composite s) eqn:Hc.
  - rewrite (H s index) by auto.
    destruct (rec2 s index) as [[new_index child]|]; [|reflexivity]. simpl.
    destruct (_iterable_like str_of s child); [|reflexivity]. simpl.
    apply IH. auto.
  - destruct (getitem flat index); [|reflexivity]. simpl. apply IH. auto.
Qed.

Lemma _packed_iterable_nest_with_indices_fuel str_of flat fuel :
  forall v index, composite v = true -> depth v <= fuel ->
  _packed_iterable_nest_with_indices str_of fuel v flat index
  = _packed_iterable_nest_with_indices str_of (depth v) v flat index.
Proof.
  induction fuel as [fuel IH] using lt_wf_ind. intros v index Hc Hd.
  destruct (depth v) as [|d] eqn:Ed.
  { destruct v; discriminate. }
  destruct fuel as [|fuel]; [lia|]. simpl.
  destruct (_yield_value_from_iterable v) as [ns|] eqn:Ens; [|reflexivity].
  simpl. apply pack_loop_ext. intros n i Hn Hcn.
  assert (depth n < depth v) by (eapply children_depth; eassumption).
  rewrite (IH fuel), (IH d); auto; lia.
Qed.

Lemma flatten_iterable_unfold v :
  flatten_iterable v = if composite v then flat_nest v else Ok [v].
Proof. unfold flatten_iterable. now rewrite is_iterable_composite. Qed.

Lemma flat_nest_unfold v :
  composite v = true ->
  flat_nest v =
  ns <- _yield_value_from_iterable v ;;
  nis <- mapM flatten_iterable ns ;;
  Ok (List.concat nis).
Proof.
  intros Hc. unfold flat_nest.
  destruct (depth v) as [|d] eqn:Ed.
  { destruct v; discriminate. }
  simpl.
  destruct (_yield_value_from_iterable v) as [ns|] eqn:Ens; [|reflexivity].
  simpl. f_equal. apply mapM_ext_in.
  intros n Hn. rewrite flatten_iterable_unfold, is_iterable_composite. simpl.
  destruct (composite n) eqn:Hcn; [|reflexivity].
  assert (depth n < depth v) by (eapply children_depth; eassumption).
  apply _yield_flat_nest_fuel; [assumption|lia].
Qed.

Lemma packed_nest_unfold str_of flat v index :
  composite v = true ->
  packed_nest str_of flat v index =
  ss <- _yield_value_from_iterable v ;;
  pack_loop str_of (packed_nest str_of flat) flat ss index [].
Proof.
  intros Hc. unfold packed_nest at 1.
  destruct (depth v) as [|d] eqn:Ed.
  { destruct v; discriminate. }
  simpl.
  destruct (_yield_value_from_iterable v) as [ns|] eqn:Ens; [|reflexivity].
  simpl. apply pack_loop_ext. intros n i Hn Hcn.
  assert (depth n < depth v) by (eapply children_depth; eassumption).
  apply _packed_iterable_nest_with_indices_fuel; [assumption|lia].
Qed.

(** ** What flattening returns *)

Lemma mapM_In_fwd {A B} (f : A -> result B) l r x y :
  mapM f l = Ok r -> In x l -> f x = Ok y -> In y r.
Proof.
  intros H. apply mapM_Ok_inv in H.
  induction H as [|x' y' l r Hxy _ IH]; simpl; intros Hx Hf; [destruct Hx|].
  destruct Hx as [->|Hx]; [left; congruence|right; auto].
Qed.

Lemma mapM_dict_get_ok items ks :
  incl ks (iterkeys items) ->
  exists ns, mapM (fun key => dict_get items key) ks = Ok ns.
Proof.
  induction ks as [|k ks IH]; simpl; intros H; [eauto|].
  destruct (dict_get_key items k) as [v ->]; [apply H; now left|].
  destruct IH as [ns ->]; [intros a Ha; apply H; now right|].
  simpl. eauto.
Qed.

Lemma yield_dict_ok kind items :
  pairwise_comparable (iterkeys items) = true ->
  exists ks ns,
    _sorted items = Ok ks /\
    mapM (fun key => dict_get items key) ks = Ok ns /\
    _yield_value_from_iterable (VDict kind items) = Ok ns.
Proof.
  intros H. destruct (_sorted_ok items H) as (ks & Hks & HP).
  destruct (mapM_dict_get_ok items ks) as [ns Hns].
  { intros a Ha. eapply Permutation_in; [apply Permutation_sym|]; eassumption. }
  exists ks, ns. simpl. rewrite Hks. simpl. auto.
Qed.

Lemma yield_dict_inv kind items ns :
  _yield_value_from_iterable (VDict kind items) = Ok ns ->
  exists ks,
    _sorted items = Ok ks /\
    mapM (fun key => dict_get items key) ks = Ok ns.
Proof.
  simpl. destruct (_sorted items) as [ks|]; simpl; [eauto|discriminate].
Qed.

(** With distinct keys every value of the dictionary is visited. *)
Lemma children_dict_complete kind items ns k v :
  NoDup (iterkeys items) ->
  _yield_value_from_iterable (VDict kind items) = Ok ns ->
  In (k, v) items -> In v ns.
Proof.
  intros Hnd H Hin. destruct (yield_dict_inv _ _ _ H) as (ks & Hks & Hns).
  eapply mapM_In_fwd; [exact Hns| |apply dict_get_NoDup; eassumption].
  eapply Permutation_in; [apply _sorted_perm; exact Hks|].
  unfold iterkeys. change k with (fst (k, v)). now apply in_map.
Qed.

Lemma mapM_flatten_outcome ns :
  Forall flatten_outcome ns ->
  if forallb sortable ns
  then exists nis, mapM flatten_iterable ns = Ok nis
  else mapM flatten_iterable ns = Raise (TypeError unsortable_msg).
Proof.
  induction 1 as [|n ns Hn _ IH]; simpl; [eauto|].
  unfold flatten_outcome in Hn. destruct (sortable n); simpl.
  - destruct Hn as [ni ->]. simpl.
    destruct (forallb sortable ns).
    + destruct IH as [nis ->]. simpl. eauto.
    + now rewrite IH.
  - now rewrite Hn.
Qed.

Lemma flat_nest_outcome v ns :
  composite v = true ->
  _yield_value_from_iterable v = Ok ns ->
  Forall flatten_outcome ns ->
  if forallb sortable ns then exists leaves, flatten_iterable v = Ok leaves
  else flatten_iterable v = Raise (TypeError unsortable_msg).
Proof.
  intros Hc Hns Hall. rewrite flatten_iterable_unfold, Hc.
  rewrite (flat_nest_unfold v Hc), Hns. simpl.
  apply mapM_flatten_outcome in Hall.
  destruct (forallb sortable ns).
  - destruct Hall as [nis ->]. simpl. eauto.
  - now rewrite Hall.
Qed.

Lemma flatten_iterable_outcome v :
  well_formed v = true -> flatten_outcome v.
Proof.
  induction v as [ | | | | |l IH|l IH|? ? l IH|kind items IH]
    using value_ind_nested; intros Hw;
    try (cbv; eauto; fail).
  - apply (flat_nest_outcome (VList l) l); auto.
    simpl in Hw. rewrite forallb_forall in Hw. rewrite Forall_forall in *. auto.
  - apply (flat_nest_outcome (VTuple l) l); auto.
    simpl in Hw. rewrite forallb_forall in Hw. rewrite Forall_forall in *. auto.
  - apply (flat_nest_outcome (VNamedTuple n f l) l); auto.
    simpl in Hw. apply andb_true_iff in Hw as [_ Hw].
    rewrite forallb_forall in Hw. rewrite Forall_forall in *. auto.
  - simpl in Hw. apply andb_true_iff in Hw as [Hnd Hw].
    apply nodup_keys_NoDup in Hnd. rewrite forallb_forall in Hw.
    rewrite Forall_forall in IH.
    unfold flatten_outcome. simpl sortable.
    destruct (pairwise_comparable (iterkeys items)) eqn:Hpc; simpl.
    + destruct (yield_dict_ok kind items Hpc) as (ks & ns & Hks & Hns & Hy).
      assert (Hall : Forall flatten_outcome ns).
      { apply Forall_forall. intros n Hn.
        destruct (children_dict_In _ _ _ _ Hy Hn) as (k & Hk).
        apply (IH _ Hk), (Hw _ Hk). }
      assert (Heq : forallb sortable ns
                    = forallb (fun kv => sortable (snd kv)) items).
      { apply eq_true_iff_eq. rewrite !forallb_forall. split.
        - intros H [k n] Hk. apply H.
          eapply children_dict_complete; eassumption.
        - intros H n Hn.
          destruct (children_dict_In _ _ _ _ Hy Hn) as (k & Hk).
          apply (H _ Hk). }
      rewrite <- Heq.
      apply (flat_nest_outcome (VDict kind items) ns); auto.
    + rewrite flatten_iterable_unfold. simpl composite. cbv iota.
      rewrite flat_nest_unfold by reflexivity. simpl.
      now rewrite (_sorted_raise _ Hpc).
Qed.

(** ** Packing what was flattened *)

Section RoundTrip.

Variable str_of : value -> string.

Lemma has_at_app flat index l1 l2 :
  has_at flat index (l1 ++ l2) ->
  has_at flat index l1 /\ has_at flat (index + List.length l1) l2.
Proof.
  intros H. split; intros i x Hi.
  - apply H. rewrite nth_error_app1; [assumption|].
    apply nth_error_Some. congruence.
  - rewrite <- Nat.add_assoc. apply H.
    rewrite nth_error_app2 by lia.
    now replace (List.length l1 + i - List.length l1) with i by lia.
Qed.

Lemma has_at_VList leaves : has_at (VList leaves) 0 leaves.
Proof. intros i x Hi. simpl. unfold nth_or_IndexError. now rewrite Hi. Qed.

Lemma mapM_fst_items (f : key -> result (key * value)) items :
  (forall kv, In kv items -> f (fst kv) = Ok kv) ->
  mapM f (iterkeys items) = Ok items.
Proof.
  induction items as [|kv items IH]; simpl; intros H; [reflexivity|].
  rewrite (H kv) by now left. simpl. rewrite IH; [reflexivity|]. auto.
Qed.

(** Rebuilding a composite from its own children gives it back. *)
Lemma _iterable_like_self v cs :
  composite v = true -> well_formed v = true ->
  _yield_value_from_iterable v = Ok cs ->
  _iterable_like str_of v cs = Ok v.
Proof.
  intros Hc Hw Hcs.
  destruct v as [ | | | | |l|l|tn fs l|kind items]; try discriminate.
  - simpl in Hcs. now injection Hcs as <-.
  - simpl in Hcs. now injection Hcs as <-.
  - simpl in Hcs. injection Hcs as <-. simpl in *.
    apply andb_true_iff in Hw as [Hlen _].
    rewrite Nat.eqb_sym, Hlen. reflexivity.
  - simpl in Hw. apply andb_true_iff in Hw as [Hnd _].
    apply nodup_keys_NoDup in Hnd.
    destruct (yield_dict_inv _ _ _ Hcs) as (ks & Hks & Hns).
    assert (HP := _sorted_perm _ _ Hks).
    assert (Hlen : List.length ks = List.length cs)
      by (symmetry; eapply mapM_length; eassumption).
    simpl. rewrite Hks. simpl.
    rewrite dict_of_pairs_NoDup
      by (rewrite iterkeys_zip by assumption;
          eapply Permutation_NoDup; eassumption).
    rewrite mapM_fst_items.
    + simpl. now rewrite dict_of_pairs_NoDup.
    + intros [k x] Hk. simpl.
      rewrite (dict_get_zip_mapM items ks cs k Hns).
      * now rewrite (dict_get_NoDup items k x Hnd Hk).
      * eapply Permutation_in; [exact HP|].
        unfold iterkeys. change k with (fst (k, x)). now apply in_map.
Qed.

Lemma pack_loop_roundtrip rec flat ss :
  (forall s, In s ss -> composite s = true -> packs_back rec flat s) ->
  Forall (fun s => well_formed s = true) ss ->
  forall nis index packed,
    mapM flatten_iterable ss = Ok nis ->
    has_at flat index (List.concat nis) ->
    pack_loop str_of rec flat ss index packed
    = Ok (index + List.length (List.concat nis), packed ++ ss).
Proof.
  induction ss as [|s ss IH]; intros Hrec Hwf nis index packed Hnis Hat.
  - simpl in *. injection Hnis as <-. simpl.
    now rewrite Nat.add_0_r, app_nil_r.
  - simpl in Hnis.
    destruct (flatten_iterable s) as [ni|] eqn:Hni; simpl in Hnis;
      try discriminate.
    destruct (mapM flatten_iterable ss) as [nis'|] eqn:Hnis'; simpl in Hnis;
      try discriminate.
    injection Hnis as <-. simpl List.concat in *.
    apply has_at_app in Hat as [Hat1 Hat2].
    inversion Hwf as [|? ? Hws Hwf']; subst.
    assert (Htail : forall i p,
               has_at flat i (List.concat nis') ->
               pack_loop str_of rec flat ss i (p ++ [s])
               = Ok (i + List.length (List.concat nis'), p ++ s :: ss)).
    { intros i p Hi. rewrite (IH (fun s' Hs' => Hrec s' (or_intror Hs'))
                                 Hwf' nis' i (p ++ [s]) eq_refl Hi).
      now rewrite <- app_assoc. }
    simpl pack_loop. rewrite is_iterable_composite. simpl.
    rewrite flatten_iterable_unfold in Hni.
    destruct (composite s) eqn:Hc.
    + destruct (Hrec s (or_introl eq_refl) Hc index ni Hni Hat1)
        as (cs & Hcs & ->). simpl.
      rewrite (_iterable_like_self s cs Hc Hws Hcs). simpl.
      rewrite Htail by assumption.
      now rewrite length_app, Nat.add_assoc.
    + injection Hni as <-. specialize (Hat1 0 s eq_refl).
      rewrite Nat.add_0_r in Hat1. rewrite Hat1. simpl.
      simpl in Hat2. rewrite Htail by assumption.
      simpl. do 2 f_equal. lia.
Qed.

Lemma packed_nest_roundtrip flat d :
  forall v, depth v < d -> composite v = true -> well_formed v = true ->
  packs_back (packed_nest str_of flat) flat v.
Proof.
  induction d as [|d IH]; intros v Hd Hc Hw index leaves Hl Hat; [lia|].
  rewrite (flat_nest_unfold v Hc) in Hl.
  destruct (_yield_value_from_iterable v) as [ss|] eqn:Hss; simpl in Hl;
    try discriminate.
  destruct (mapM flatten_iterable ss) as [nis|] eqn:Hnis; simpl in Hl;
    try discriminate.
  injection Hl as <-.
  exists ss. split; [reflexivity|].
  rewrite (packed_nest_unfold str_of flat v index Hc), Hss. simpl.
  apply (pack_loop_roundtrip _ flat ss) with (packed := []); auto.
  - intros s Hs Hcs. apply IH; auto.
    + assert (depth s < depth v) by (eapply children_depth; eassumption). lia.
    + eapply children_well_formed; eassumption.
  - apply Forall_forall. intros s Hs.
    eapply children_well_formed; eassumption.
Qed.

End RoundTrip.

(** ** Traversal order *)

Lemma item_of_items items :
  NoDup (iterkeys items) -> map (item_of items) (iterkeys items) = items.
Proof.
  intros Hnd. unfold iterkeys. rewrite map_map.
  rewrite <- (map_id items) at 2. apply map_ext_in.
  intros [k v] Hk. unfold item_of. simpl.
  now rewrite (dict_get_NoDup items k v Hnd Hk).
Qed.

Lemma item_of_zip items ks ns :
  mapM (fun key => dict_get items key) ks = Ok ns ->
  map (item_of items) ks = zip ks ns.
Proof.
  revert ns. induction ks as [|k ks IH]; simpl; intros ns H.
  - now injection H as <-.
  - destruct (dict_get items k) eqn:E; simpl in H; try discriminate.
    destruct (mapM _ ks) eqn:E'; simpl in H; try discriminate.
    injection H as <-. simpl. unfold item_of at 1. rewrite E.
    f_equal. now apply IH.
Qed.

Lemma map_snd_zip (ks : list key) (ns : list value) :
  List.length ks = List.length ns -> map snd (zip ks ns) = ns.
Proof.
  revert ns. induction ks as [|k ks IH]; destruct ns; simpl;
    try discriminate; [reflexivity|].
  intros [= H]. now rewrite IH.
Qed.

Lemma yield_visit_order v ns :
  composite v = true -> well_formed v = true ->
  _yield_value_from_iterable v = Ok ns -> visit_order v ns.
Proof.
  intros Hc Hw Hns.
  destruct v as [ | | | | |l|l|tn fs l|kind items]; try discriminate;
    try (simpl in Hns; injection Hns as <-; constructor).
  simpl in Hw. apply andb_true_iff in Hw as [Hnd _].
  apply nodup_keys_NoDup in Hnd.
  destruct (yield_dict_inv _ _ _ Hns) as (ks & Hks & Hget).
  assert (Hlen : List.length ks = List.length ns)
    by (symmetry; eapply mapM_length; eassumption).
  rewrite <- (map_snd_zip ks ns Hlen). constructor.
  - rewrite <- (item_of_zip items ks ns Hget).
    rewrite <- (item_of_items items Hnd) at 1.
    apply Permutation_map, _sorted_perm, Hks.
  - rewrite iterkeys_zip by assumption.
    eapply sorted_sorted; [exact Hnd|]. now apply _sorted_inv.
Qed.

Lemma flatten_iterable_dfs d :
  forall v leaves,
    depth v < d -> well_formed v = true ->
    flatten_iterable v = Ok leaves -> dfs_order v leaves.
Proof.
  induction d as [|d IH]; intros v leaves Hd Hw Hl; [lia|].
  rewrite flatten_iterable_unfold in Hl.
  destruct (composite v) eqn:Hc.
  - rewrite (flat_nest_unfold v Hc) in Hl.
    destruct (_yield_value_from_iterable v) as [ns|] eqn:Hns; simpl in Hl;
      try discriminate.
    destruct (mapM flatten_iterable ns) as [nis|] eqn:Hnis; simpl in Hl;
      try discriminate.
    injection Hl as <-.
    apply dfs_node with (ns := ns); auto using yield_visit_order.
    apply mapM_Ok_inv in Hnis.
    assert (Hall : Forall (fun n => depth n < d /\ well_formed n = true) ns).
    { apply Forall_forall. intros n Hn. split.
      - assert (depth n < depth v) by (eapply children_depth; eassumption).
        lia.
      - eapply children_well_formed; eassumption. }
    clear Hns. induction Hnis as [|n ni ns nis Hn _ IHnis]; constructor.
    + inversion Hall as [|? ? [? ?] _]; subst. now apply IH.
    + inversion Hall; subst. auto.
  - injection Hl as <-. now constructor.
Qed.

(** The native order of the items does not show in what is flattened. *)
Lemma dict_get_perm items1 items2 k :
  NoDup (iterkeys items1) -> Permutation items1 items2 ->
  dict_get items1 k = dict_get items2 k.
Proof.
  intros Hnd HP.
  assert (Hnd2 : NoDup (iterkeys items2))
    by (eapply Permutation_NoDup; [apply Permutation_map; exact HP|exact Hnd]).
  destruct (dict_get items1 k) as [v|e] eqn:E1.
  - symmetry. apply dict_get_NoDup; [assumption|].
    eapply Permutation_in; [exact HP|]. now apply dict_get_In.
  - destruct (dict_get items2 k) as [v|e'] eqn:E2.
    + apply dict_get_In in E2.
      eapply Permutation_in in E2; [|apply Permutation_sym; exact HP].
      rewrite (dict_get_NoDup items1 k v Hnd E2) in E1. discriminate.
    + clear -E1 E2.
      assert (H1 : forall items x, dict_get items k = Raise x -> x = KeyError k).
      { induction items as [|[k' v'] items IH]; simpl; intros x.
        - congruence.
        - destruct (key_eqb k k'); [discriminate|auto]. }
      now rewrite (H1 _ _ E1), (H1 _ _ E2).
Qed.

Lemma _sorted_perm_invariant items1 items2 :
  NoDup (iterkeys items1) -> Permutation items1 items2 ->
  _sorted items1 = _sorted items2.
Proof.
  intros Hnd HP.
  assert (HPk : Permutation (iterkeys items1) (iterkeys items2))
    by now apply Permutation_map.
  destruct (pairwise_comparable (iterkeys items1)) eqn:Hpc.
  - destruct (_sorted_ok _ Hpc) as (ks & Hks & _). rewrite Hks.
    apply _sorted_inv in Hks as [Hks _].
    unfold _sorted. now rewrite (sorted_perm_invariant _ _ _ Hnd HPk Hks).
  - rewrite (_sorted_raise _ Hpc). symmetry. apply _sorted_raise.
    now rewrite <- (pairwise_comparable_perm _ _ HPk).
Qed.

Lemma flatten_iterable_perm kind1 kind2 items1 items2 :
  NoDup (iterkeys items1) -> Permutation items1 items2 ->
  flatten_iterable (VDict kind1 items1) = flatten_iterable (VDict kind2 items2).
Proof.
  intros Hnd HP. rewrite !flatten_iterable_unfold. simpl composite. cbv iota.
  rewrite !flat_nest_unfold by reflexivity. simpl.
  rewrite <- (_sorted_perm_invariant items1 items2 Hnd HP).
  destruct (_sorted items1) as [ks|]; [|reflexivity]. simpl.
  erewrite (mapM_ext_in (fun key => dict_get items1 key)); [reflexivity|].
  intros k _. now apply dict_get_perm.
Qed.

Lemma items_determined a b :
  NoDup (iterkeys a) -> Permutation a b -> iterkeys a = iterkeys b -> a = b.
Proof.
  intros Hnd HP Hk.
  assert (Hnd' : NoDup (iterkeys b)) by now rewrite <- Hk.
  rewrite <- (item_of_items a Hnd), <- (item_of_items b Hnd'), Hk.
  apply map_ext. intros k. unfold item_of.
  now rewrite (dict_get_perm a b k Hnd HP).
Qed.

Lemma visit_order_functional v ns1 ns2 :
  well_formed v = true ->
  visit_order v ns1 -> visit_order v ns2 -> ns1 = ns2.
Proof.
  intros Hw H1 H2.
  inversion H1 as [| | |kind items items1 HP1 Hs1]; subst;
    inversion H2 as [| | |? ? items2 HP2 Hs2]; subst; try reflexivity.
  simpl in Hw. apply andb_true_iff in Hw as [Hnd _].
  apply nodup_keys_NoDup in Hnd.
  assert (HP : Permutation items1 items2)
    by (rewrite <- HP1; exact HP2).
  assert (Hnd1 : NoDup (iterkeys items1))
    by (eapply Permutation_NoDup; [apply Permutation_map; exact HP1|exact Hnd]).
  f_equal. apply items_determined; auto.
  apply sorted_unique; auto. now apply Permutation_map.
Qed.

Lemma visit_order_children v ns n :
  well_formed v = true -> visit_order v ns -> In n ns ->
  depth n < depth v /\ well_formed n = true.
Proof.
  intros Hw H Hn.
  inversion H as [l|l|tn fs l|kind items items' HP Hs]; subst; simpl in *.
  - rewrite forallb_forall in Hw. split; [|auto].
    apply Nat.lt_succ_r, depth_list_le, Hn.
  - rewrite forallb_forall in Hw. split; [|auto].
    apply Nat.lt_succ_r, depth_list_le, Hn.
  - apply andb_true_iff in Hw as [_ Hw]. rewrite forallb_forall in Hw.
    split; [|auto]. apply Nat.lt_succ_r, depth_list_le, Hn.
  - apply andb_true_iff in Hw as [_ Hw]. rewrite forallb_forall in Hw.
    apply in_map_iff in Hn as ([k n'] & <- & Hk). simpl.
    eapply Permutation_in in Hk; [|apply Permutation_sym; exact HP].
    split; [|exact (Hw _ Hk)].
    eapply Nat.lt_succ_r, depth_items_le. eassumption.
Qed.

(** The order leaves the flattened list no freedom. *)
Lemma dfs_order_functional d :
  forall v l1 l2,
    depth v < d -> well_formed v = true ->
    dfs_order v l1 -> dfs_order v l2 -> l1 = l2.
Proof.
  induction d as [|d IH]; intros v l1 l2 Hd Hw H1 H2; [lia|].
  inversion H1 as [? Hc1|? ns1 nis1 Hc1 Hv1 Hf1]; subst;
    inversion H2 as [? Hc2|? ns2 nis2 Hc2 Hv2 Hf2]; subst;
    try congruence.
  assert (ns1 = ns2) as <- by (eapply visit_order_functional; eassumption).
  f_equal.
  assert (Hall : Forall (fun n => depth n < d /\ well_formed n = true) ns1).
  { apply Forall_forall. intros n Hn.
    destruct (visit_order_children v ns1 n Hw Hv1 Hn). split; [lia|auto]. }
  clear Hv1 Hv2 H1 H2. revert nis2 Hf2.
  induction Hf1 as [|n ni ns nis Hn _ IHf]; intros nis2 Hf2;
    inversion Hf2; subst; [reflexivity|].
  inversion Hall as [|? ? [? ?] Hall']; subst.
  f_equal; [eapply IH; eassumption|auto].
Qed.

(** ** Rebuilding a mapping *)

Lemma dict_get_notin items k :
  ~ In k (iterkeys items) -> dict_get items k = Raise (KeyError k).
Proof.
  induction items as [|[k' v'] items IH]; simpl; intros H; [reflexivity|].
  destruct (key_eqb k k') eqn:E.
  - apply key_eqb_eq in E. exfalso. apply H. now left.
  - apply IH. intros Hin. apply H. now right.
Qed.

Lemma dict_get_zip_nth ks : forall args i k x,
  NoDup ks -> nth_error ks i = Some k -> nth_error args i = Some x ->
  dict_get (zip ks args) k = Ok x.
Proof.
  induction ks as [|k' ks IH]; intros args i k x Hnd Hk Hx.
  - destruct i; discriminate.
  - destruct args as [|a args]; [destruct i; discriminate|].
    inversion Hnd as [|? ? Hk' Hnd']; subst. destruct i as [|i]; simpl in *.
    + injection Hk as ->. injection Hx as ->. now rewrite key_eqb_refl.
    + destruct (key_eqb k k') eqn:E.
      * apply key_eqb_eq in E as ->. apply nth_error_In in Hk. contradiction.
      * eapply IH; eassumption.
Qed.

Lemma mapM_item_of Z l :
  incl l (iterkeys Z) ->
  mapM (fun key => v <- dict_get Z key ;; Ok (key, v)) l
  = Ok (map (item_of Z) l).
Proof.
  induction l as [|k l IH]; simpl; intros H; [reflexivity|].
  unfold item_of at 1.
  destruct (dict_get_key Z k) as [v ->]; [apply H; now left|]. simpl.
  rewrite IH; [reflexivity|]. intros a Ha. apply H. now right.
Qed.

Lemma dict_get_map_item_of Z l k :
  In k l -> dict_get (map (item_of Z) l) k = Ok (snd (item_of Z k)).
Proof.
  induction l as [|k' l IH]; simpl; intros H; [destruct H|].
  destruct (key_eqb k k') eqn:E.
  - apply key_eqb_eq in E as ->. reflexivity.
  - apply key_eqb_neq in E. destruct H as [?|H]; [congruence|auto].
Qed.

Lemma iterkeys_map_item_of Z l : iterkeys (map (item_of Z) l) = l.
Proof.
  unfold iterkeys. rewrite map_map. simpl. apply map_id.
Qed.

(** A mapping is rebuilt with the kind and the native key order of the
    template; its associations are those of the sorted keys zipped with
    [args]. *)
Lemma _iterable_like_dict str_of kind items args ks :
  NoDup (iterkeys items) -> _sorted items = Ok ks ->
  List.length args = List.length items ->
  exists items',
    _iterable_like str_of (VDict kind items) args = Ok (VDict kind items') /\
    iterkeys items' = iterkeys items /\
    forall k, dict_get items' k = dict_get (zip ks args) k.
Proof.
  intros Hnd Hks Hlen.
  assert (HP := _sorted_perm _ _ Hks).
  assert (Hlen' : List.length ks = List.length args).
  { rewrite <- (Permutation_length HP). unfold iterkeys.
    now rewrite length_map. }
  assert (Hndk : NoDup ks) by (eapply Permutation_NoDup; eassumption).
  exists (map (item_of (zip ks args)) (iterkeys items)).
  simpl. rewrite Hks. simpl.
  rewrite dict_of_pairs_NoDup by now rewrite iterkeys_zip.
  rewrite mapM_item_of.
  2:{ rewrite iterkeys_zip by assumption. intros a Ha.
      eapply Permutation_in; eassumption. }
  simpl. rewrite dict_of_pairs_NoDup by now rewrite iterkeys_map_item_of.
  split; [reflexivity|]. split; [apply iterkeys_map_item_of|].
  intros k. destruct (in_dec key_eq_dec k (iterkeys items)) as [Hin|Hout].
  - rewrite dict_get_map_item_of by assumption. unfold item_of. simpl.
    destruct (dict_get_key (zip ks args) k) as [v ->]; [|reflexivity].
    rewrite iterkeys_zip by assumption. eapply Permutation_in; eassumption.
  - rewrite !dict_get_notin; [reflexivity| |].
    + rewrite iterkeys_zip by assumption. intros Hin. apply Hout.
      eapply Permutation_in; [apply Permutation_sym|]; eassumption.
    + now rewrite iterkeys_map_item_of.
Qed.

Lemma pack_loop_leaves str_of rec flat ss :
  Forall (fun s => composite s = false) ss ->
  forall xs index packed,
    List.length xs = List.length ss -> has_at flat index xs ->
    pack_loop str_of rec flat ss index packed
    = Ok (index + List.length ss, packed ++ xs).
Proof.
  induction 1 as [|s ss Hs _ IH]; intros xs index packed Hlen Hat.
  - destruct xs; [|discriminate]. simpl.
    now rewrite Nat.add_0_r, app_nil_r.
  - destruct xs as [|x xs]; [discriminate|]. simpl.
    rewrite is_iterable_composite, Hs. simpl.
    assert (Hx := Hat 0 x eq_refl). rewrite Nat.add_0_r in Hx.
    rewrite Hx. simpl.
    rewrite (IH xs (index + 1) (packed ++ [x])).
    + rewrite <- app_assoc. simpl. do 2 f_equal. lia.
    + simpl in Hlen. lia.
    + intros i y Hi. rewrite <- Nat.add_assoc. apply (Hat (S i)). exact Hi.
Qed.

Lemma mapM_flatten_leaves ns :
  Forall (fun n => composite n = false) ns ->
  mapM flatten_iterable ns = Ok (map (fun n => [n]) ns).
Proof.
  induction 1 as [|n ns Hn _ IH]; simpl; [reflexivity|].
  rewrite flatten_iterable_unfold, Hn. simpl. now rewrite IH.
Qed.

Lemma concat_singletons (ns : list value) :
  List.concat (map (fun n => [n]) ns) = ns.
Proof. induction ns as [|n ns IH]; simpl; congruence. Qed.

(** A mapping of leaves flattens to its values by ascending key. *)
Lemma flatten_dict_leaves kind items ks :
  Forall (fun kv => composite (snd kv) = false) items ->
  _sorted items = Ok ks ->
  exists ns,
    mapM (fun key => dict_get items key) ks = Ok ns /\
    _yield_value_from_iterable (VDict kind items) = Ok ns /\
    Forall (fun n => composite n = false) ns /\
    flatten_iterable (VDict kind items) = Ok ns.
Proof.
  intros Hleaf Hks.
  destruct (mapM_dict_get_ok items ks) as [ns Hns].
  { intros a Ha. eapply Permutation_in;
      [apply Permutation_sym, _sorted_perm|]; eassumption. }
  assert (Hy : _yield_value_from_iterable (VDict kind items) = Ok ns)
    by (simpl; rewrite Hks; exact Hns).
  assert (Hall : Forall (fun n => composite n = false) ns).
  { apply Forall_forall. intros n Hn.
    destruct (children_dict_In _ _ _ _ Hy Hn) as (k & Hk).
    rewrite Forall_forall in Hleaf. exact (Hleaf _ Hk). }
  exists ns. repeat split; auto.
  rewrite flatten_iterable_unfold. simpl composite. cbv iota.
  rewrite flat_nest_unfold by reflexivity. rewrite Hy. simpl.
  rewrite (mapM_flatten_leaves ns Hall). simpl.
  now rewrite concat_singletons.
Qed.

(** ** The entry point of packing *)

Lemma pack_iterable_as_composite str_of structure flat :
  composite flat = true -> composite structure = true ->
  pack_iterable_as str_of structure flat =
  flat_structure <- flatten_iterable structure ;;
  n <- len flat ;;
  if negb (List.length flat_structure =? n)%nat
  then Raise (ValueError
                (arity_msg str_of (List.length flat_structure) n
                   structure flat))
  else ' (_, packed) <- packed_nest str_of flat structure 0 ;;
       _iterable_like str_of structure packed.
Proof.
  intros Hf Hc. unfold pack_iterable_as.
  now rewrite !is_iterable_composite, Hf, Hc.
Qed.

Lemma pack_iterable_as_scalar str_of structure flat :
  composite flat = true -> composite structure = false ->
  pack_iterable_as str_of structure flat =
  n <- len flat ;;
  if negb (n =? 1)%nat then Raise (ValueError (scalar_msg n))
  else getitem flat 0.
Proof.
  intros Hf Hc. unfold pack_iterable_as.
  now rewrite !is_iterable_composite, Hf, Hc.
Qed.

Lemma pack_iterable_as_not_iterable str_of structure flat :
  composite flat = false ->
  pack_iterable_as str_of structure flat = Raise (TypeError not_iterable_msg).
Proof.
  intros Hf. unfold pack_iterable_as.
  now rewrite is_iterable_composite, Hf.
Qed.

Lemma pack_of_flatten_composite str_of (structure : value) leaves :
  composite structure = true -> well_formed structure = true ->
  flatten_iterable structure = Ok leaves ->
  pack_iterable_as str_of structure (VList leaves) = Ok structure.
Proof.
  intros Hc Hw Hl. rewrite pack_iterable_as_composite by auto.
  rewrite Hl. cbn [bind len]. rewrite Nat.eqb_refl. cbn [negb].
  rewrite flatten_iterable_unfold, Hc in Hl.
  destruct (packed_nest_roundtrip str_of (VList leaves)
              (S (depth structure)) structure
              (Nat.lt_succ_diag_r _) Hc Hw 0 leaves Hl
              (has_at_VList leaves)) as (cs & Hcs & Hp).
  rewrite Hp. cbn [bind]. now apply _iterable_like_self.
Qed.

(** ** Messages *)

Lemma string_append_assoc (a b c : string) :
  ((a ++ b) ++ c = a ++ b ++ c)%string.
Proof. induction a as [|x a IH]; simpl; congruence. Qed.

Lemma contains_here sub post : contains sub (sub ++ post)%string.
Proof. exists EmptyString, post. reflexivity. Qed.

Lemma contains_append_r sub s t :
  contains sub t -> contains sub (s ++ t)%string.
Proof.
  intros (pre & post & ->). exists (s ++ pre)%string, post.
  now rewrite string_append_assoc.
Qed.

(** ** The properties of the specification *)

(** C1. Round trip: for a structure of lists, tuples, namedtuples and
    dictionaries whose keys are pairwise comparable, with any leaves,
    flattening succeeds and packing the flattened list into the structure
    itself returns the structure: same container kinds, same nesting, same
    native key order, same leaves. *)
Theorem pack_flatten_roundtrip str_of (structure : value) :
  well_formed structure = true -> sortable structure = true ->
  exists leaves,
    flatten_iterable structure = Ok leaves /\
    pack_iterable_as str_of structure (VList leaves) = Ok structure.
Proof.
  intros Hw Hs. assert (Ho := flatten_iterable_outcome structure Hw).
  unfold flatten_outcome in Ho. rewrite Hs in Ho. destruct Ho as [leaves Hl].
  exists leaves. split; [assumption|].
  destruct (composite structure) eqn:Hc.
  - now apply pack_of_flatten_composite.
  - rewrite pack_iterable_as_scalar by auto.
    rewrite flatten_iterable_unfold, Hc in Hl. injection Hl as <-.
    reflexivity.
Qed.

Lemma pack_flatten_roundtrip_witness :
  exists leaves,
    flatten_iterable example_record = Ok leaves /\
    pack_iterable_as no_str example_record (VList leaves) = Ok example_record.
Proof. apply (pack_flatten_roundtrip no_str example_record); reflexivity. Defined.

(** C2. Flatten ordering: what [flatten_iterable] returns is the
    depth-first, left-to-right list of leaves, sequences and records in
    positional order and mappings by ascending key; that order determines
    the list, so the native order of a mapping's items does not show.  The
    two examples of the specification are instances. *)
Theorem flatten_iterable_order (v : value) :
  well_formed v = true -> sortable v = true ->
  (exists leaves,
      flatten_iterable v = Ok leaves /\
      dfs_order v leaves /\
      forall leaves', dfs_order v leaves' -> leaves' = leaves)
  /\ (forall kind items kind' items',
         v = VDict kind items -> Permutation items items' ->
         flatten_iterable (VDict kind' items') = flatten_iterable v)
  /\ flatten_iterable
       (VDict PlainDict [(KStr "b", VInt 2); (KStr "a", VInt 1)])
     = Ok [VInt 1; VInt 2]
  /\ flatten_iterable example_nested
     = Ok [VStr "a"; VInt 1; VInt 2; VStr "b"; VStr "c"].
Proof.
  intros Hw Hs. split; [|split; [|split; reflexivity]].
  - assert (Ho := flatten_iterable_outcome v Hw).
    unfold flatten_outcome in Ho. rewrite Hs in Ho.
    destruct Ho as [leaves Hl]. exists leaves.
    assert (Hd : dfs_order v leaves)
      by (eapply (flatten_iterable_dfs (S (depth v))); eauto).
    repeat split; auto.
    intros leaves' Hd'.
    eapply (dfs_order_functional (S (depth v))); eauto.
  - intros kind items kind' items' -> HP. symmetry.
    apply flatten_iterable_perm; [|assumption].
    simpl in Hw. apply andb_true_iff in Hw as [Hnd _].
    now apply nodup_keys_NoDup.
Qed.

(** Packing the nested example: the flat values go to the keys in
    ascending order, ["x"] first. *)
Example pack_example_nested :
  pack_iterable_as no_str example_nested
    (VList [VStr "p"; VInt 9; VInt 8; VStr "q"; VStr "r"])
  = Ok (VList [VStr "p";
               VDict PlainDict [(KStr "y", VInt 8); (KStr "x", VInt 9)];
               VTuple [VStr "q"; VStr "r"]]).
Proof. reflexivity. Qed.

Lemma flatten_iterable_order_witness :
  exists leaves,
    flatten_iterable example_record = Ok leaves /\
    dfs_order example_record leaves /\
    forall leaves', dfs_order example_record leaves' -> leaves' = leaves.
Proof.
  apply (flatten_iterable_order example_record); reflexivity.
Defined.

(** C3. Mapping reconstruction: a mapping template is rebuilt as a mapping
    of its own kind and native key order in which the [i]-th smallest key
    holds [args[i]]; so flattening one mapping and packing into a template
    of either kind with the same keys gives the associations of the first,
    be the values leaves in both or the items the same in another order. *)
Theorem mapping_rebuilt_by_sorted_keys str_of kind1 kind2 items1 items2 ks :
  NoDup (iterkeys items1) -> NoDup (iterkeys items2) ->
  Permutation (iterkeys items1) (iterkeys items2) ->
  _sorted items2 = Ok ks ->
  (forall args,
      List.length args = List.length items2 ->
      exists items',
        _iterable_like str_of (VDict kind2 items2) args
        = Ok (VDict kind2 items') /\
        iterkeys items' = iterkeys items2 /\
        forall i k x,
          nth_error ks i = Some k -> nth_error args i = Some x ->
          dict_get items' k = Ok x)
  /\ (Forall leaf_item items1 -> Forall leaf_item items2 ->
      exists leaves items',
        flatten_iterable (VDict kind1 items1) = Ok leaves /\
        pack_iterable_as str_of (VDict kind2 items2) (VList leaves)
        = Ok (VDict kind2 items') /\
        iterkeys items' = iterkeys items2 /\
        forall k, dict_get items' k = dict_get items1 k)
  /\ (Permutation items1 items2 ->
      well_formed (VDict kind2 items2) = true ->
      sortable (VDict kind2 items2) = true ->
      exists leaves,
        flatten_iterable (VDict kind1 items1) = Ok leaves /\
        pack_iterable_as str_of (VDict kind2 items2) (VList leaves)
        = Ok (VDict kind2 items2)).
Proof.
  intros Hnd1 Hnd2 HPk Hks2.
  assert (HP2 := _sorted_perm _ _ Hks2).
  assert (Hndk : NoDup ks) by (eapply Permutation_NoDup; eassumption).
  split; [|split].
  - intros args Hlen.
    destruct (_iterable_like_dict str_of kind2 items2 args ks Hnd2 Hks2 Hlen)
      as (items' & Hlike & Hkeys & Hget).
    exists items'. repeat split; auto.
    intros i k x Hk Hx. rewrite Hget. eapply dict_get_zip_nth; eassumption.
  - intros Hleaf1 Hleaf2.
    assert (Hks1 : _sorted items1 = Ok ks).
    { apply _sorted_inv in Hks2 as [Hks2 _]. unfold _sorted.
      now rewrite (sorted_perm_invariant _ _ ks Hnd2
                     (Permutation_sym HPk) Hks2). }
    destruct (flatten_dict_leaves kind1 items1 ks Hleaf1 Hks1)
      as (ns1 & Hget1 & _ & _ & Hflat1).
    destruct (flatten_dict_leaves kind2 items2 ks Hleaf2 Hks2)
      as (ns2 & Hget2 & Hy2 & Hall2 & Hflat2).
    assert (Hlen1 : List.length ns1 = List.length ks)
      by (eapply mapM_length; eassumption).
    assert (Hlen2 : List.length ns2 = List.length ks)
      by (eapply mapM_length; eassumption).
    destruct (_iterable_like_dict str_of kind2 items2 ns1 ks Hnd2 Hks2)
      as (items' & Hlike & Hkeys & Hget).
    { rewrite Hlen1, <- (Permutation_length HP2). unfold iterkeys.
      now rewrite length_map. }
    exists ns1, items'. repeat split; auto.
    + rewrite pack_iterable_as_composite by reflexivity.
      rewrite Hflat2. cbn [bind len].
      rewrite Hlen1, Hlen2, Nat.eqb_refl. cbn [negb].
      rewrite packed_nest_unfold by reflexivity. rewrite Hy2. cbn [bind].
      rewrite (pack_loop_leaves str_of _ (VList ns1) ns2 Hall2 ns1 0 [])
        by (congruence || apply has_at_VList).
      cbn [bind app]. exact Hlike.
    + intros k. rewrite Hget.
      destruct (in_dec key_eq_dec k ks) as [Hin|Hout].
      * now apply dict_get_zip_mapM.
      * rewrite !dict_get_notin; [reflexivity| |].
        -- intros Hin. apply Hout. eapply Permutation_in; [exact HP2|].
           eapply Permutation_in; eassumption.
        -- now rewrite iterkeys_zip by congruence.
  - intros HP Hw Hs.
    assert (Ho := flatten_iterable_outcome (VDict kind2 items2) Hw).
    unfold flatten_outcome in Ho. rewrite Hs in Ho.
    destruct Ho as [leaves Hl]. exists leaves. split.
    + now rewrite (flatten_iterable_perm kind1 kind2 items1 items2 Hnd1 HP).
    + now apply pack_of_flatten_composite.
Qed.

Lemma mapping_rebuilt_by_sorted_keys_witness :
  exists leaves items',
    flatten_iterable (VDict OrderedDict ordered_ba) = Ok leaves /\
    pack_iterable_as no_str (VDict PlainDict plain_ab) (VList leaves)
    = Ok (VDict PlainDict items') /\
    iterkeys items' = iterkeys plain_ab /\
    forall k, dict_get items' k = dict_get ordered_ba k.
Proof.
  refine (proj1 (proj2 (mapping_rebuilt_by_sorted_keys no_str
            OrderedDict PlainDict ordered_ba plain_ab [KStr "a"; KStr "b"]
            _ _ _ _)) _ _).
  - apply nodup_keys_NoDup. reflexivity.
  - apply nodup_keys_NoDup. reflexivity.
  - apply perm_swap.
  - reflexivity.
  - repeat constructor.
  - repeat constructor.
Defined.

(** C4. Arity mismatch: for a composite template that flattens and an
    iterable of another length than its number of leaves,
    [pack_iterable_as] raises [ValueError]; the message holds both counts
    and the renderings of the template and of the flat values. *)
Theorem pack_arity_mismatch str_of structure flat leaves n :
  composite structure = true ->
  flatten_iterable structure = Ok leaves ->
  composite flat = true -> len flat = Ok n ->
  n <> List.length leaves ->
  let msg := arity_msg str_of (List.length leaves) n structure flat in
  pack_iterable_as str_of structure flat = Raise (ValueError msg) /\
  contains (fmt_d (List.length leaves)) msg /\
  contains (fmt_d n) msg /\
  contains (str_of structure) msg /\
  contains (str_of flat) msg.
Proof.
  intros Hc Hl Hf Hn Hne msg. split.
  - rewrite pack_iterable_as_composite by assumption.
    rewrite Hl, Hn. cbn [bind].
    replace (List.length leaves =? n)%nat with false; [reflexivity|].
    symmetry. apply Nat.eqb_neq. congruence.
  - unfold msg, arity_msg.
    repeat split;
      repeat (apply contains_here || apply contains_append_r).
Qed.

Lemma pack_arity_mismatch_witness :
  pack_iterable_as no_str
    (VDict PlainDict [(KStr "a", VInt 1); (KStr "b", VInt 2)])
    (VList [VInt 10])
  = Raise (ValueError
      "Could not pack iterable. Structure had 2 elements, but flat_iterable had 1 elements.  Structure: , flat_iterable: .").
Proof.
  refine (proj1 (pack_arity_mismatch no_str
            (VDict PlainDict [(KStr "a", VInt 1); (KStr "b", VInt 2)])
            (VList [VInt 10]) [VInt 1; VInt 2] 1 _ _ _ _ _));
    (reflexivity || (simpl; lia)).
Defined.

(** C5. Scalar template: for a template that is not composite and an
    iterable [flat_iterable], [pack_iterable_as] raises [ValueError] when
    the length is not one, zero included, and returns the only element of a
    sequence of length one. *)
Theorem pack_scalar_template str_of structure flat n :
  composite structure = false ->
  composite flat = true -> len flat = Ok n ->
  (n <> 1 ->
   pack_iterable_as str_of structure flat = Raise (ValueError (scalar_msg n)))
  /\ (forall x, sequence_elems flat = Some [x] ->
                pack_iterable_as str_of structure flat = Ok x)
  /\ pack_iterable_as str_of (VInt 5) (VList [VInt 7]) = Ok (VInt 7)
  /\ pack_iterable_as str_of (VInt 5) (VList [VInt 7; VInt 8])
     = Raise (ValueError (scalar_msg 2)).
Proof.
  intros Hc Hf Hn. rewrite pack_iterable_as_scalar by assumption.
  rewrite Hn. cbn [bind]. split; [|split; [|split; reflexivity]].
  - intros Hne. apply Nat.eqb_neq in Hne. now rewrite Hne.
  - intros x Hx.
    destruct flat as [ | | | | |l|l|tn fs l|kind items]; try discriminate;
      simpl in Hx; injection Hx as ->; simpl in Hn; injection Hn as <-;
      reflexivity.
Qed.

Lemma pack_scalar_template_witness :
  pack_iterable_as no_str (VStr "s") (VTuple [])
  = Raise (ValueError "Structure is a scalar but len(flat_iterable) == 0 > 1").
Proof.
  refine (proj1 (pack_scalar_template no_str (VStr "s") (VTuple []) 0
                   _ _ _) _); (reflexivity || lia).
Defined.

(** C6. Unsortable keys: a structure that is or contains a dictionary whose
    keys are not pairwise comparable makes [flatten_iterable] raise the
    [TypeError] of [_sorted]; [pack_iterable_as] on such a template raises
    that same error for every iterable [flat_iterable], from its flattening
    of the template, and a [TypeError] whatever [flat_iterable] is. *)
Theorem unsortable_keys_raise str_of (v : value) :
  well_formed v = true -> sortable v = false ->
  flatten_iterable v = Raise (TypeError unsortable_msg)
  /\ (forall flat, composite flat = true ->
        pack_iterable_as str_of v flat = Raise (TypeError unsortable_msg))
  /\ (forall flat, exists msg,
        pack_iterable_as str_of v flat = Raise (TypeError msg))
  /\ flatten_iterable
       (VDict PlainDict [(KInt 1, VStr "x"); (KStr "y", VStr "z")])
     = Raise (TypeError unsortable_msg).
Proof.
  intros Hw Hs. assert (Ho := flatten_iterable_outcome v Hw).
  unfold flatten_outcome in Ho. rewrite Hs in Ho.
  assert (Hc : composite v = true).
  { destruct v; try discriminate; reflexivity. }
  assert (Hp : forall flat, composite flat = true ->
             pack_iterable_as str_of v flat = Raise (TypeError unsortable_msg)).
  { intros flat Hf. rewrite pack_iterable_as_composite by assumption.
    now rewrite Ho. }
  repeat split; auto.
  intros flat. destruct (composite flat) eqn:Hf.
  - rewrite Hp by assumption. eauto.
  - rewrite pack_iterable_as_not_iterable by assumption. eauto.
Qed.

Lemma unsortable_keys_raise_witness :
  flatten_iterable
    (VTuple [VInt 0; VList [VDict OrderedDict
                              [(KStr "y", VNone); (KInt 1, VNone)]]])
  = Raise (TypeError "nest only supports dicts with sortable keys.").
Proof.
  refine (proj1 (unsortable_keys_raise no_str
    (VTuple [VInt 0; VList [VDict OrderedDict
                              [(KStr "y", VNone); (KInt 1, VNone)]]])
    _ _)); reflexivity.
Defined.

(** C7. Leaves: a value [is_iterable] rejects is flattened to the list of
    that value alone; every string, ndarray and tensor is such a value,
    also where [iter] would yield its elements. *)
Theorem flatten_leaf (v : value) :
  is_iterable v = Ok false ->
  flatten_iterable v = Ok [v]
  /\ (forall s, is_iterable (VStr s) = Ok false /\ iter (VStr s) = Ok (chars s))
  /\ (forall e, is_iterable (VNdarray e) = Ok false)
  /\ (forall e, iter (VNdarray (Some e)) = Ok (map VInt e))
  /\ (forall name e, is_iterable (VTensor name e) = Ok false)
  /\ (forall name e, iter (VTensor name (Some e)) = Ok (map VInt e)).
Proof.
  intros H. unfold flatten_iterable. rewrite H. repeat split.
Qed.

Lemma flatten_leaf_witness :
  flatten_iterable (VNdarray (Some [1; 2; 3]%Z))
  = Ok [VNdarray (Some [1; 2; 3]%Z)].
Proof.
  refine (proj1 (flatten_leaf (VNdarray (Some [1; 2; 3]%Z)) _)). reflexivity.
Defined.

(** On the values of the model [is_iterable] returns a boolean: [True]
    exactly on the values that are no string, no ndarray and no tensor and
    that [iter] accepts. *)
Lemma is_iterable_total (v : value) :
  exists b,
    is_iterable v = Ok b /\
    (b = true <->
     isinstance_string v = false /\ isinstance_ndarray v = false /\
     isinstance_Tensor v = false /\ exists l, iter v = Ok l).
Proof.
  exists (composite v). split; [apply is_iterable_composite|].
  destruct v as [ | | |[?|]|?[?|]| | | | ]; simpl; split;
    try discriminate; try (intros (? & ? & ? & ? & ?); discriminate);
    intros _; repeat split; eauto.
Qed.

Lemma is_iterable_object_value (v : value) :
  is_iterable_object (OValue v) = is_iterable v.
Proof. reflexivity. Qed.

Lemma iter_value_TypeError (v : value) e :
  iter v = Raise e -> exists msg, e = TypeError msg.
Proof.
  destruct v as [ | | |[?|]|?[?|]| | | | ]; simpl; intros H;
    try discriminate; injection H as <-; eauto.
Qed.

(** C8, counterexample. On an object whose [__iter__] raises [ValueError],
    [is_iterable] raises that [ValueError] and returns no boolean: only
    [TypeError] is caught. *)
Lemma is_iterable_object_raises :
  is_iterable_object bad_object = Raise (ValueError "boom") /\
  ~ (exists b, is_iterable_object bad_object = Ok b).
Proof.
  split; [reflexivity|]. intros [b H]. discriminate.
Qed.

(** C8, amended. The classifier on any object: where [iter] returns or
    raises [TypeError], as on every value of the model, [is_iterable]
    returns a boolean and raises nothing, [True] exactly on the objects
    that are no string, no ndarray and no tensor and that [iter] accepts;
    on a string, an ndarray or a tensor it returns [False] with no call of
    [iter]; and an exception of [iter] other than [TypeError] is the
    exception of [is_iterable]. *)
Theorem is_iterable_object_outcome (o : pyobject) :
  ((forall e, iter_object o = Raise e -> exists msg, e = TypeError msg) ->
   exists b,
     is_iterable_object o = Ok b /\
     (b = true <->
      isinstance_string_object o = false /\
      isinstance_ndarray_object o = false /\
      isinstance_Tensor_object o = false /\
      exists l, iter_object o = Ok l))
  /\ (isinstance_string_object o || isinstance_ndarray_object o
      || isinstance_Tensor_object o = true ->
      is_iterable_object o = Ok false)
  /\ (forall e,
        isinstance_string_object o || isinstance_ndarray_object o
        || isinstance_Tensor_object o = false ->
        iter_object o = Raise e ->
        (forall msg, e <> TypeError msg) ->
        is_iterable_object o = Raise e)
  /\ (forall v, o = OValue v ->
        is_iterable_object o = is_iterable v /\
        forall e, iter_object o = Raise e -> exists msg, e = TypeError msg).
Proof.
  unfold is_iterable_object. split; [|split; [|split]].
  - intros H.
    destruct (isinstance_string_object o) eqn:Hs;
      [exists false; split; [reflexivity|];
       split; [discriminate|intros (? & _); discriminate]|].
    destruct (isinstance_ndarray_object o) eqn:Hn;
      [exists false; split; [reflexivity|];
       split; [discriminate|intros (_ & ? & _); discriminate]|].
    destruct (isinstance_Tensor_object o) eqn:Ht;
      [exists false; split; [reflexivity|];
       split; [discriminate|intros (_ & _ & ? & _); discriminate]|].
    cbn [orb]. destruct (iter_object o) as [l|e] eqn:Hi.
    + exists true. repeat split; eauto.
    + destruct (H e eq_refl) as [msg ->]. exists false.
      split; [reflexivity|].
      split; [discriminate|intros (_ & _ & _ & l & ?); discriminate].
  - intros H. now rewrite H.
  - intros e Hop Hi Hne. rewrite Hop, Hi.
    destruct e; try reflexivity. now destruct (Hne msg).
  - intros v ->. split; [reflexivity|].
    intros e. apply iter_value_TypeError.
Qed.

Lemma is_iterable_object_outcome_witness :
  exists b,
    is_iterable_object set_object = Ok b /\
    (b = true <->
     isinstance_string_object set_object = false /\
     isinstance_ndarray_object set_object = false /\
     isinstance_Tensor_object set_object = false /\
     exists l, iter_object set_object = Ok l).
Proof.
  apply (proj1 (is_iterable_object_outcome set_object)).
  intros e H. discriminate.
Defined.

(** C9. Precondition: where [is_iterable] rejects [flat_iterable],
    [pack_iterable_as] raises [TypeError] whatever the template, the
    template not yet looked at. *)
Theorem pack_flat_not_iterable str_of structure flat :
  is_iterable flat = Ok false ->
  pack_iterable_as str_of structure flat = Raise (TypeError not_iterable_msg).
Proof. intros H. unfold pack_iterable_as. now rewrite H. Qed.

Lemma pack_flat_not_iterable_witness :
  pack_iterable_as no_str
    (VDict PlainDict [(KInt 1, VStr "x"); (KStr "y", VStr "z")]) (VInt 3)
  = Raise (TypeError "flat_iterable must be an iterable").
Proof. apply pack_flat_not_iterable. reflexivity. Defined.

(** C10. A string, an ndarray or a tensor as [flat_iterable] makes
    [pack_iterable_as] raise the [TypeError] of the precondition for every
    template, though [iter] yields the elements of such a value. *)
Theorem pack_flat_opaque str_of structure :
  (forall s,
      pack_iterable_as str_of structure (VStr s)
      = Raise (TypeError not_iterable_msg) /\
      iter (VStr s) = Ok (chars s))
  /\ (forall e,
      pack_iterable_as str_of structure (VNdarray e)
      = Raise (TypeError not_iterable_msg))
  /\ (forall e, iter (VNdarray (Some e)) = Ok (map VInt e))
  /\ (forall name e,
      pack_iterable_as str_of structure (VTensor name e)
      = Raise (TypeError not_iterable_msg))
  /\ (forall name e, iter (VTensor name (Some e)) = Ok (map VInt e)).
Proof. repeat split. Qed.

(** * Further properties of the code *)

(** ** [_sorted] *)

(** [_sorted] on a dictionary: the keys in strictly ascending order when
    every two of them compare, the [TypeError] of the module, whatever the
    comparison said, when two do not. *)
Theorem _sorted_spec items :
  NoDup (iterkeys items) ->
  if pairwise_comparable (iterkeys items)
  then exists ks,
      _sorted items = Ok ks /\
      Permutation (iterkeys items) ks /\
      StronglySorted key_before ks
  else _sorted items = Raise (TypeError unsortable_msg).
Proof.
  intros Hnd. destruct (pairwise_comparable (iterkeys items)) eqn:Hpc.
  - destruct (_sorted_ok items Hpc) as (ks & Hks & HP).
    exists ks. repeat split; auto.
    eapply sorted_sorted; [exact Hnd|]. now apply _sorted_inv.
  - now apply _sorted_raise.
Qed.

Lemma _sorted_spec_witness :
  exists ks,
    _sorted [(KInt 3, VNone); (KInt (-1), VNone); (KInt 2, VNone)] = Ok ks /\
    Permutation [KInt 3; KInt (-1); KInt 2] ks /\
    StronglySorted key_before ks.
Proof.
  apply (_sorted_spec [(KInt 3, VNone); (KInt (-1), VNone); (KInt 2, VNone)]).
  apply nodup_keys_NoDup. reflexivity.
Defined.

(** ** What a flattened list holds *)

Lemma concat_Forall {A} (P : A -> Prop) (ls : list (list A)) :
  Forall (Forall P) ls -> Forall P (List.concat ls).
Proof.
  induction 1 as [|l ls Hl _ IH]; simpl; [constructor|].
  apply Forall_app. auto.
Qed.

Lemma flatten_iterable_leaves d :
  forall v leaves,
    depth v < d -> flatten_iterable v = Ok leaves -> Forall leaf leaves.
Proof.
  induction d as [|d IH]; intros v leaves Hd Hl; [lia|].
  rewrite flatten_iterable_unfold in Hl.
  destruct (composite v) eqn:Hc.
  - rewrite (flat_nest_unfold v Hc) in Hl.
    destruct (_yield_value_from_iterable v) as [ns|] eqn:Hns; simpl in Hl;
      try discriminate.
    destruct (mapM flatten_iterable ns) as [nis|] eqn:Hnis; simpl in Hl;
      try discriminate.
    injection Hl as <-. apply concat_Forall.
    apply Forall_forall. intros ni Hni.
    destruct (mapM_In _ _ _ _ Hnis Hni) as (n & Hn & Hfn).
    apply (IH n); [|assumption].
    assert (depth n < depth v) by (eapply children_depth; eassumption). lia.
  - injection Hl as <-. repeat constructor. exact Hc.
Qed.

(** Only leaves come out of [flatten_iterable], so flattening the
    flattened list again changes nothing. *)
Theorem flatten_iterable_idempotent v leaves :
  flatten_iterable v = Ok leaves ->
  Forall leaf leaves /\ flatten_iterable (VList leaves) = Ok leaves.
Proof.
  intros Hl.
  assert (Hall : Forall leaf leaves)
    by (eapply (flatten_iterable_leaves (S (depth v))); eauto).
  split; [assumption|].
  rewrite flatten_iterable_unfold. simpl composite. cbv iota.
  rewrite flat_nest_unfold by reflexivity. simpl.
  rewrite (mapM_flatten_leaves leaves Hall). simpl.
  now rewrite concat_singletons.
Qed.

Lemma flatten_iterable_idempotent_witness :
  Forall leaf [VStr "a"; VInt 1; VInt 2; VStr "b"; VStr "c"] /\
  flatten_iterable (VList [VStr "a"; VInt 1; VInt 2; VStr "b"; VStr "c"])
  = Ok [VStr "a"; VInt 1; VInt 2; VStr "b"; VStr "c"].
Proof. apply (flatten_iterable_idempotent example_nested). reflexivity. Defined.

Lemma list_sum_perm l1 l2 : Permutation l1 l2 -> list_sum l1 = list_sum l2.
Proof. induction 1; simpl; lia. Qed.

Lemma length_concat_sum {A} (ls : list (list A)) :
  List.length (List.concat ls) = list_sum (map (@List.length A) ls).
Proof.
  induction ls as [|l ls IH]; simpl; [reflexivity|].
  now rewrite length_app, IH.
Qed.

Lemma count_leaves_children v ns :
  composite v = true -> visit_order v ns ->
  count_leaves v = list_sum (map count_leaves ns).
Proof.
  intros Hc H. inversion H as [| | |kind items items' HP Hs]; subst;
    try reflexivity.
  simpl. rewrite map_map. apply list_sum_perm. now apply Permutation_map.
Qed.

Lemma flatten_iterable_count d :
  forall v leaves,
    depth v < d -> well_formed v = true ->
    flatten_iterable v = Ok leaves -> List.length leaves = count_leaves v.
Proof.
  induction d as [|d IH]; intros v leaves Hd Hw Hl; [lia|].
  rewrite flatten_iterable_unfold in Hl.
  destruct (composite v) eqn:Hc.
  - rewrite (flat_nest_unfold v Hc) in Hl.
    destruct (_yield_value_from_iterable v) as [ns|] eqn:Hns; simpl in Hl;
      try discriminate.
    destruct (mapM flatten_iterable ns) as [nis|] eqn:Hnis; simpl in Hl;
      try discriminate.
    injection Hl as <-.
    rewrite (count_leaves_children v ns Hc (yield_visit_order v ns Hc Hw Hns)).
    rewrite length_concat_sum. f_equal.
    assert (Hall : Forall (fun n => depth n < d /\ well_formed n = true) ns).
    { apply Forall_forall. intros n Hn. split.
      - assert (depth n < depth v) by (eapply children_depth; eassumption).
        lia.
      - eapply children_well_formed; eassumption. }
    apply mapM_Ok_inv in Hnis. clear Hns.
    induction Hnis as [|n ni ns nis Hn _ IHnis]; simpl; [reflexivity|].
    inversion Hall as [|? ? [? ?] Hall']; subst.
    f_equal; [now apply IH|auto].
  - injection Hl as <-. destruct v; try discriminate; reflexivity.
Qed.

(** The flattened list has one entry per leaf of the structure, whatever
    the order the traversal took through its dictionaries. *)
Theorem flatten_iterable_length v leaves :
  well_formed v = true -> flatten_iterable v = Ok leaves ->
  List.length leaves = count_leaves v.
Proof. intros Hw Hl. eapply (flatten_iterable_count (S (depth v))); eauto. Qed.

Lemma flatten_iterable_length_witness :
  List.length [VStr "one"; VInt 30; VNone; VNdarray (Some [1; 2]%Z);
               VTensor "t" None]
  = count_leaves example_record.
Proof. apply flatten_iterable_length; reflexivity. Defined.

(** ** Packing any values *)

Lemma mapM_app {A B} (f : A -> result B) l1 l2 :
  mapM f (l1 ++ l2) =
  r1 <- mapM f l1 ;; r2 <- mapM f l2 ;; Ok (r1 ++ r2).
Proof.
  induction l1 as [|x l1 IH]; simpl.
  - destruct (mapM f l2); reflexivity.
  - destruct (f x); simpl; [|reflexivity]. rewrite IH.
    destruct (mapM f l1); simpl; [|reflexivity].
    destruct (mapM f l2); reflexivity.
Qed.

Lemma shape_leaf v : composite v = false -> shape v = VNone.
Proof. destruct v; try discriminate; reflexivity. Qed.

Lemma packed_like_leaf s x : composite s = false -> packed_like s x [x].
Proof.
  intros Hs. repeat split.
  - intros xss H. simpl in H.
    destruct (flatten_iterable x) as [l|]; simpl in H; try discriminate.
    injection H as <-. simpl. now rewrite app_nil_r.
  - intros H. inversion H; subst. now rewrite !shape_leaf.
  - intros H. now inversion H.
Qed.

Lemma packed_likes_nil : packed_likes [] [] [].
Proof.
  repeat split; auto. intros xss H. injection H as <-. now exists [].
Qed.

Lemma packed_likes_cons s r xs1 ss rs xs2 :
  packed_like s r xs1 -> packed_likes ss rs xs2 ->
  packed_likes (s :: ss) (r :: rs) (xs1 ++ xs2).
Proof.
  intros (Hf & Hsh & Hw) (Hlen & Hfs & Hshs & Hws). repeat split.
  - simpl. congruence.
  - intros xss H. rewrite mapM_app in H.
    destruct (mapM flatten_iterable xs1) as [xss1|]; simpl in H;
      try discriminate.
    destruct (mapM flatten_iterable xs2) as [xss2|]; simpl in H;
      try discriminate.
    injection H as <-.
    destruct (Hfs xss2 eq_refl) as (rss & Hrss & Hc).
    exists (List.concat xss1 :: rss). simpl.
    rewrite (Hf xss1 eq_refl), Hrss. simpl.
    now rewrite concat_app, Hc.
  - intros H. apply Forall_app in H as [H1 H2]. simpl.
    now rewrite Hsh, Hshs.
  - intros H. apply Forall_app in H as [H1 H2]. constructor; auto.
Qed.

Lemma mapM_dict_get_zip ks : forall rs,
  NoDup ks -> List.length ks = List.length rs ->
  mapM (fun key => dict_get (zip ks rs) key) ks = Ok rs.
Proof.
  induction ks as [|k ks IH]; intros [|r rs] Hnd Hlen; try discriminate;
    [reflexivity|].
  inversion Hnd as [|? ? Hk Hnd']; subst. simpl.
  rewrite key_eqb_refl. simpl.
  rewrite (mapM_ext_in _ (fun key => dict_get (zip ks rs) key)).
  - rewrite IH; auto.
  - intros k' Hk'. destruct (key_eqb k' k) eqn:E; [|reflexivity].
    apply key_eqb_eq in E. congruence.
Qed.

Lemma zip_lookup_map (f : value -> value) k ks : forall rs ss,
  map f rs = map f ss ->
  f (snd (item_of (zip ks rs) k)) = f (snd (item_of (zip ks ss) k)).
Proof.
  unfold item_of. simpl.
  induction ks as [|k' ks IH]; intros [|r rs] [|s ss] H; try discriminate;
    try reflexivity.
  injection H as Hr Hrs. simpl.
  destruct (key_eqb k k'); [assumption|]. now apply IH.
Qed.

Lemma dict_get_zip_In (ks : list key) (rs : list value) k r :
  dict_get (zip ks rs) k = Ok r -> In r rs.
Proof.
  intros H. apply dict_get_In in H. eapply in_combine_r. exact H.
Qed.

(** Rebuilding a composite from as many values as it has children: the
    values are the children of what is built. *)
Lemma _iterable_like_children str_of v ss rs :
  composite v = true -> well_formed v = true ->
  _yield_value_from_iterable v = Ok ss ->
  List.length rs = List.length ss ->
  exists r,
    _iterable_like str_of v rs = Ok r /\
    composite r = true /\
    _yield_value_from_iterable r = Ok rs /\
    (map shape rs = map shape ss -> shape r = shape v) /\
    (Forall (fun x => well_formed x = true) rs -> well_formed r = true).
Proof.
  intros Hc Hw Hss Hlen.
  destruct v as [ | | | | |l|l|tn fs l|kind items]; try discriminate.
  - simpl in Hss. injection Hss as <-. exists (VList rs). simpl.
    repeat split; auto; [congruence|].
    intros H. apply forallb_forall. now apply Forall_forall.
  - simpl in Hss. injection Hss as <-. exists (VTuple rs). simpl.
    repeat split; auto; [congruence|].
    intros H. apply forallb_forall. now apply Forall_forall.
  - simpl in Hss. injection Hss as <-. exists (VNamedTuple tn fs rs).
    simpl in Hw. apply andb_true_iff in Hw as [Hfs _].
    apply Nat.eqb_eq in Hfs. simpl.
    replace (List.length rs =? List.length fs)%nat with true
      by (symmetry; apply Nat.eqb_eq; congruence).
    repeat split; auto; [congruence|].
    intros H. apply andb_true_iff. split.
    + apply Nat.eqb_eq. congruence.
    + apply forallb_forall. now apply Forall_forall.
  - simpl in Hw. apply andb_true_iff in Hw as [Hnd _].
    apply nodup_keys_NoDup in Hnd.
    destruct (yield_dict_inv _ _ _ Hss) as (ks & Hks & Hget).
    assert (HP := _sorted_perm _ _ Hks).
    assert (Hndk : NoDup ks) by (eapply Permutation_NoDup; eassumption).
    assert (Hlenk : List.length ks = List.length rs).
    { rewrite Hlen. symmetry. eapply mapM_length; eassumption. }
    assert (Hlen' : List.length rs = List.length items).
    { rewrite <- Hlenk, <- (Permutation_length HP). unfold iterkeys.
      now rewrite length_map. }
    destruct (_iterable_like_dict str_of kind items rs ks Hnd Hks Hlen')
      as (items' & Hlike & Hkeys & Hlook).
    assert (Hnd' : NoDup (iterkeys items')) by now rewrite Hkeys.
    assert (Hitems' : items' = map (item_of (zip ks rs)) (iterkeys items)).
    { rewrite <- (item_of_items items' Hnd'), Hkeys. apply map_ext.
      intros k. unfold item_of. now rewrite Hlook. }
    exists (VDict kind items'). repeat split; auto.
    + simpl. unfold _sorted in *. rewrite Hkeys.
      destruct (sorted (iterkeys items)) as [ks'|[]]; try discriminate.
      injection Hks as ->. simpl.
      rewrite (mapM_ext_in _ (fun key => dict_get (zip ks rs) key))
        by (intros; apply Hlook).
      now apply mapM_dict_get_zip.
    + intros Hsh. simpl. f_equal.
      rewrite Hitems'. rewrite <- (item_of_items items Hnd) at 2.
      rewrite !map_map.
      apply map_ext_in. intros k Hk. simpl. f_equal.
      assert (Hz := zip_lookup_map shape k ks rs ss Hsh).
      unfold item_of in Hz. simpl in Hz. rewrite Hz.
      rewrite (dict_get_zip_mapM items ks ss k Hget); [reflexivity|].
      eapply Permutation_in; eassumption.
    + intros Hall. simpl. apply andb_true_iff. split.
      * now apply nodup_keys_NoDup.
      * apply forallb_forall. intros [k r] Hkr. simpl.
        rewrite Forall_forall in Hall. apply Hall.
        apply (dict_get_zip_In ks rs k). rewrite <- Hlook.
        now apply dict_get_NoDup.
Qed.

Lemma list_split_length {A} (xs : list A) n m :
  List.length xs = n + m ->
  exists xs1 xs2,
    xs = xs1 ++ xs2 /\ List.length xs1 = n /\ List.length xs2 = m.
Proof.
  intros H. exists (firstn n xs), (skipn n xs).
  rewrite firstn_skipn, length_firstn, length_skipn. repeat split; lia.
Qed.

Lemma pack_loop_any str_of rec flat ss :
  (forall s, In s ss -> composite s = true -> packs_any str_of rec flat s) ->
  forall nis xs index packed,
    mapM flatten_iterable ss = Ok nis ->
    List.length xs = List.length (List.concat nis) ->
    has_at flat index xs ->
    exists rs,
      pack_loop str_of rec flat ss index packed
      = Ok (index + List.length xs, packed ++ rs) /\
      packed_likes ss rs xs.
Proof.
  induction ss as [|s ss IH]; intros Hrec nis xs index packed Hnis Hlen Hat.
  - simpl in Hnis. injection Hnis as <-. destruct xs; [|discriminate].
    exists []. simpl. rewrite Nat.add_0_r, app_nil_r.
    split; [reflexivity|apply packed_likes_nil].
  - simpl in Hnis.
    destruct (flatten_iterable s) as [ni|] eqn:Hni; simpl in Hnis;
      try discriminate.
    destruct (mapM flatten_iterable ss) as [nis'|] eqn:Hnis'; simpl in Hnis;
      try discriminate.
    injection Hnis as <-. simpl in Hlen. rewrite length_app in Hlen.
    destruct (list_split_length xs _ _ Hlen) as (xs1 & xs2 & -> & Hl1 & Hl2).
    apply has_at_app in Hat as [Hat1 Hat2].
    assert (Htail : forall r,
               exists rs',
                 pack_loop str_of rec flat ss (index + List.length xs1)
                   (packed ++ [r])
                 = Ok (index + List.length (xs1 ++ xs2), packed ++ r :: rs') /\
                 packed_likes ss rs' xs2).
    { intros r.
      destruct (IH (fun s' Hs' => Hrec s' (or_intror Hs')) nis' xs2
                  (index + List.length xs1) (packed ++ [r]) eq_refl Hl2 Hat2)
        as (rs' & Hloop & Hlikes).
      exists rs'. split; [|assumption].
      rewrite Hloop, <- app_assoc, length_app, Nat.add_assoc. reflexivity. }
    simpl pack_loop. rewrite is_iterable_composite. cbn [bind].
    rewrite flatten_iterable_unfold in Hni.
    destruct (composite s) eqn:Hc.
    + destruct (Hrec s (or_introl eq_refl) Hc index xs1 ni Hni Hl1 Hat1)
        as (rs_s & r & Hr & Hlike & _ & Hpl).
      rewrite Hr. cbn [bind]. rewrite Hlike. cbn [bind].
      destruct (Htail r) as (rs' & Hloop & Hlikes).
      exists (r :: rs'). split; [assumption|].
      now apply packed_likes_cons.
    + injection Hni as <-. destruct xs1 as [|x [|? ?]]; try discriminate.
      assert (Hx := Hat1 0 x eq_refl). rewrite Nat.add_0_r in Hx.
      rewrite Hx. cbn [bind].
      destruct (Htail x) as (rs' & Hloop & Hlikes).
      exists (x :: rs'). split; [assumption|].
      apply (packed_likes_cons s x [x]); [|assumption].
      now apply packed_like_leaf.
Qed.

Lemma packed_nest_any str_of flat d :
  forall v, depth v < d -> composite v = true -> well_formed v = true ->
  packs_any str_of (packed_nest str_of flat) flat v.
Proof.
  induction d as [|d IH]; intros v Hd Hc Hw index xs leaves Hl Hlen Hat;
    [lia|].
  rewrite (flat_nest_unfold v Hc) in Hl.
  destruct (_yield_value_from_iterable v) as [ss|] eqn:Hss; simpl in Hl;
    try discriminate.
  destruct (mapM flatten_iterable ss) as [nis|] eqn:Hnis; simpl in Hl;
    try discriminate.
  injection Hl as <-.
  destruct (pack_loop_any str_of (packed_nest str_of flat) flat ss) 
    with (nis := nis) (xs := xs) (index := index) (packed := @nil value)
    as (rs & Hloop & Hlen' & Hfl & Hsh & Hwf); auto.
  { intros s Hs Hcs. apply IH; auto.
    - assert (depth s < depth v) by (eapply children_depth; eassumption). lia.
    - eapply children_well_formed; eassumption. }
  destruct (_iterable_like_children str_of v ss rs Hc Hw Hss Hlen')
    as (r & Hlike & Hcr & Hyr & Hshr & Hwr).
  exists rs, r. rewrite (packed_nest_unfold str_of flat v index Hc), Hss.
  cbn [bind]. repeat split; auto.
  intros xss Hxss. destruct (Hfl xss Hxss) as (rss & Hrss & Hcc).
  rewrite flatten_iterable_unfold, Hcr, (flat_nest_unfold r Hcr), Hyr.
  cbn [bind]. rewrite Hrss. cbn [bind]. now rewrite Hcc.
Qed.

Lemma has_at_sequence flat xs :
  sequence_elems flat = Some xs ->
  composite flat = true /\ len flat = Ok (List.length xs) /\ has_at flat 0 xs.
Proof.
  intros H.
  destruct flat as [ | | | | |l|l|tn fs l|kind items]; try discriminate;
    injection H as ->; repeat split;
    intros i x Hi; simpl; unfold nth_or_IndexError; now rewrite Hi.
Qed.

(** Packing as many values as the template has leaves. *)
Lemma pack_iterable_as_any str_of structure flat xs leaves :
  well_formed structure = true ->
  flatten_iterable structure = Ok leaves ->
  composite flat = true -> len flat = Ok (List.length xs) ->
  has_at flat 0 xs ->
  List.length xs = List.length leaves ->
  exists r,
    pack_iterable_as str_of structure flat = Ok r /\
    packed_like structure r xs.
Proof.
  intros Hw Hl Hf Hn Hat Hlen.
  destruct (composite structure) eqn:Hc.
  - rewrite pack_iterable_as_composite by assumption.
    rewrite Hl, Hn. cbn [bind]. rewrite Hlen, Nat.eqb_refl. cbn [negb].
    rewrite flatten_iterable_unfold, Hc in Hl.
    destruct (packed_nest_any str_of flat (S (depth structure)) structure
                (Nat.lt_succ_diag_r _) Hc Hw 0 xs leaves Hl Hlen Hat)
      as (rs & r & Hp & Hlike & _ & Hpl).
    rewrite Hp. cbn [bind]. eauto.
  - rewrite pack_iterable_as_scalar by assumption.
    rewrite flatten_iterable_unfold, Hc in Hl. injection Hl as <-.
    destruct xs as [|x [|? ?]]; try discriminate.
    rewrite Hn. cbn [bind Nat.eqb negb].
    assert (Hx := Hat 0 x eq_refl). simpl in Hx. rewrite Hx.
    exists x. split; [reflexivity|]. now apply packed_like_leaf.
Qed.

(** Flattening then packing undone the other way: a list, tuple or
    namedtuple of as many leaves as the template has is packed without an
    exception, and flattening what was built returns those leaves. *)
Theorem flatten_of_pack str_of structure flat xs leaves :
  well_formed structure = true ->
  flatten_iterable structure = Ok leaves ->
  sequence_elems flat = Some xs ->
  List.length xs = List.length leaves ->
  Forall leaf xs ->
  exists r,
    pack_iterable_as str_of structure flat = Ok r /\
    flatten_iterable r = Ok xs.
Proof.
  intros Hw Hl Hseq Hlen Hleaf.
  destruct (has_at_sequence flat xs Hseq) as (Hf & Hn & Hat).
  destruct (pack_iterable_as_any str_of structure flat xs leaves
              Hw Hl Hf Hn Hat Hlen) as (r & Hp & Hfl & _).
  exists r. split; [assumption|].
  rewrite (Hfl _ (mapM_flatten_leaves xs Hleaf)).
  now rewrite concat_singletons.
Qed.

Lemma flatten_of_pack_witness :
  exists r,
    pack_iterable_as no_str example_record
      (VTuple [VInt 1; VInt 2; VInt 3; VInt 4; VInt 5]) = Ok r /\
    flatten_iterable r = Ok [VInt 1; VInt 2; VInt 3; VInt 4; VInt 5].
Proof.
  apply (flatten_of_pack no_str example_record
           (VTuple [VInt 1; VInt 2; VInt 3; VInt 4; VInt 5])
           [VInt 1; VInt 2; VInt 3; VInt 4; VInt 5]
           [VStr "one"; VInt 30; VNone; VNdarray (Some [1; 2]%Z);
            VTensor "t" None]);
    try reflexivity.
  repeat constructor.
Defined.

(** Packing does not look at what the values are: a composite among them
    is put where a leaf was, and flattening what was built enters it, so
    the result flattens to what the flat list itself flattens to. *)
Theorem flatten_of_pack_nested str_of structure flat xs leaves ys :
  well_formed structure = true ->
  flatten_iterable structure = Ok leaves ->
  sequence_elems flat = Some xs ->
  List.length xs = List.length leaves ->
  flatten_iterable (VList xs) = Ok ys ->
  exists r,
    pack_iterable_as str_of structure flat = Ok r /\
    flatten_iterable r = Ok ys.
Proof.
  intros Hw Hl Hseq Hlen Hys.
  destruct (has_at_sequence flat xs Hseq) as (Hf & Hn & Hat).
  destruct (pack_iterable_as_any str_of structure flat xs leaves
              Hw Hl Hf Hn Hat Hlen) as (r & Hp & Hfl & _).
  exists r. split; [assumption|].
  rewrite flatten_iterable_unfold in Hys. simpl composite in Hys.
  cbv iota in Hys. rewrite flat_nest_unfold in Hys by reflexivity.
  simpl in Hys.
  destruct (mapM flatten_iterable xs) as [xss|]; simpl in Hys;
    try discriminate.
  injection Hys as <-. now apply Hfl.
Qed.

Lemma flatten_of_pack_nested_witness :
  exists r,
    pack_iterable_as no_str (VList [VInt 0; VInt 0])
      (VList [VTuple [VInt 1; VInt 2]; VInt 3]) = Ok r /\
    flatten_iterable r = Ok [VInt 1; VInt 2; VInt 3].
Proof.
  apply (flatten_of_pack_nested no_str (VList [VInt 0; VInt 0])
           (VList [VTuple [VInt 1; VInt 2]; VInt 3])
           [VTuple [VInt 1; VInt 2]; VInt 3] [VInt 0; VInt 0]);
    reflexivity.
Defined.

(** What is packed from leaves has the shape of the template: the same
    container kinds and nesting, the same field names, the same keys in the
    same native order. *)
Theorem pack_keeps_shape str_of structure flat xs leaves :
  well_formed structure = true ->
  flatten_iterable structure = Ok leaves ->
  sequence_elems flat = Some xs ->
  List.length xs = List.length leaves ->
  Forall leaf xs ->
  exists r,
    pack_iterable_as str_of structure flat = Ok r /\
    shape r = shape structure.
Proof.
  intros Hw Hl Hseq Hlen Hleaf.
  destruct (has_at_sequence flat xs Hseq) as (Hf & Hn & Hat).
  destruct (pack_iterable_as_any str_of structure flat xs leaves
              Hw Hl Hf Hn Hat Hlen) as (r & Hp & _ & Hsh & _).
  exists r. auto.
Qed.

Lemma pack_keeps_shape_witness :
  exists r,
    pack_iterable_as no_str example_record
      (VList [VInt 1; VInt 2; VInt 3; VInt 4; VInt 5]) = Ok r /\
    shape r = shape example_record.
Proof.
  apply (pack_keeps_shape no_str example_record
           (VList [VInt 1; VInt 2; VInt 3; VInt 4; VInt 5])
           [VInt 1; VInt 2; VInt 3; VInt 4; VInt 5]
           [VStr "one"; VInt 30; VNone; VNdarray (Some [1; 2]%Z);
            VTensor "t" None]);
    try reflexivity.
  repeat constructor.
Defined.

(** ** Where the flat values give out *)

Lemma pack_loop_fail str_of rec flat ss :
  (forall s, In s ss -> composite s = true ->
             packs_any str_of rec flat s /\ packs_fail rec flat s) ->
  forall nis xs index packed e,
    mapM flatten_iterable ss = Ok nis ->
    List.length xs < List.length (List.concat nis) ->
    has_at flat index xs ->
    getitem flat (index + List.length xs) = Raise e ->
    pack_loop str_of rec flat ss index packed = Raise e.
Proof.
  induction ss as [|s ss IH]; intros Hrec nis xs index packed e Hnis Hlen Hat He.
  - simpl in Hnis. injection Hnis as <-. simpl in Hlen. lia.
  - simpl in Hnis.
    destruct (flatten_iterable s) as [ni|] eqn:Hni; simpl in Hnis;
      try discriminate.
    destruct (mapM flatten_iterable ss) as [nis'|] eqn:Hnis'; simpl in Hnis;
      try discriminate.
    injection Hnis as <-. simpl in Hlen. rewrite length_app in Hlen.
    simpl pack_loop. rewrite is_iterable_composite. cbn [bind].
    rewrite flatten_iterable_unfold in Hni.
    destruct (le_lt_dec (List.length ni) (List.length xs)) as [Hle|Hlt].
    + destruct (list_split_length xs (List.length ni)
                  (List.length xs - List.length ni))
        as (xs1 & xs2 & -> & Hl1 & Hl2); [lia|].
      apply has_at_app in Hat as [Hat1 Hat2].
      rewrite length_app, Nat.add_assoc in He.
      assert (Htail : forall r,
                 pack_loop str_of rec flat ss (index + List.length xs1)
                   (packed ++ [r]) = Raise e).
      { intros r.
        apply (IH (fun s' Hs' => Hrec s' (or_intror Hs')) nis' xs2); auto.
        rewrite length_app in Hlen. lia. }
      destruct (composite s) eqn:Hc.
      * destruct (Hrec s (or_introl eq_refl) Hc) as [Hany _].
        destruct (Hany index xs1 ni Hni Hl1 Hat1)
          as (rs_s & r & Hr & Hlike & _).
        rewrite Hr. cbn [bind]. rewrite Hlike. cbn [bind]. apply Htail.
      * injection Hni as <-. destruct xs1 as [|x [|? ?]]; try discriminate.
        assert (Hx := Hat1 0 x eq_refl). rewrite Nat.add_0_r in Hx.
        rewrite Hx. cbn [bind]. apply (Htail x).
    + destruct (composite s) eqn:Hc.
      * destruct (Hrec s (or_introl eq_refl) Hc) as [_ Hfail].
        now rewrite (Hfail index xs ni e Hni Hlt Hat He).
      * injection Hni as <-. destruct xs; [|simpl in Hlt; lia].
        simpl in He. rewrite Nat.add_0_r in He. now rewrite He.
Qed.

Lemma packed_nest_fail str_of flat d :
  forall v, depth v < d -> composite v = true -> well_formed v = true ->
  packs_fail (packed_nest str_of flat) flat v.
Proof.
  induction d as [|d IH]; intros v Hd Hc Hw index xs leaves e Hl Hlen Hat He;
    [lia|].
  rewrite (flat_nest_unfold v Hc) in Hl.
  destruct (_yield_value_from_iterable v) as [ss|] eqn:Hss; simpl in Hl;
    try discriminate.
  destruct (mapM flatten_iterable ss) as [nis|] eqn:Hnis; simpl in Hl;
    try discriminate.
  injection Hl as <-.
  rewrite (packed_nest_unfold str_of flat v index Hc), Hss. cbn [bind].
  apply (pack_loop_fail str_of _ flat ss) with (nis := nis) (xs := xs); auto.
  intros s Hs Hcs.
  assert (depth s < d).
  { assert (depth s < depth v) by (eapply children_depth; eassumption). lia. }
  assert (well_formed s = true) by (eapply children_well_formed; eassumption).
  split; [eapply packed_nest_any; eassumption|now apply IH].
Qed.

Lemma has_at_skipn l index : has_at (VList l) index (skipn index l).
Proof.
  intros i x Hi. simpl. unfold nth_or_IndexError.
  rewrite nth_error_skipn in Hi. now rewrite Hi.
Qed.

(** The helper called on a list that ends before the leaves of the
    structure do raises [IndexError], from [flat[index]], where its
    docstring announces [ValueError]. *)
Theorem _packed_iterable_nest_with_indices_short str_of structure l index
  leaves :
  composite structure = true -> well_formed structure = true ->
  flatten_iterable structure = Ok leaves -> leaves <> [] ->
  List.length l < index + List.length leaves ->
  _packed_iterable_nest_with_indices str_of (depth structure) structure
    (VList l) index
  = Raise IndexError.
Proof.
  intros Hc Hw Hl Hne Hlen. rewrite flatten_iterable_unfold, Hc in Hl.
  assert (0 < List.length leaves) by (destruct leaves; [congruence|simpl; lia]).
  apply (packed_nest_fail str_of (VList l) (S (depth structure)) structure
           (Nat.lt_succ_diag_r _) Hc Hw index (skipn index l) leaves
           IndexError Hl).
  - rewrite length_skipn. lia.
  - apply has_at_skipn.
  - simpl. unfold nth_or_IndexError.
    replace (nth_error l (index + List.length (skipn index l))) with
      (@None value); [reflexivity|].
    symmetry. apply nth_error_None. rewrite length_skipn. lia.
Qed.

Lemma _packed_iterable_nest_with_indices_short_witness :
  _packed_iterable_nest_with_indices no_str (depth example_nested)
    example_nested (VList [VInt 1; VInt 2; VInt 3; VInt 4; VInt 5]) 1
  = Raise IndexError.
Proof.
  apply (_packed_iterable_nest_with_indices_short no_str example_nested
           [VInt 1; VInt 2; VInt 3; VInt 4; VInt 5] 1
           [VStr "a"; VInt 1; VInt 2; VStr "b"; VStr "c"]);
    (reflexivity || discriminate || (simpl; lia)).
Defined.

(** A dictionary passes for [flat_iterable], and is then read by position:
    [flat_iterable[0]] is the lookup of the key [0].  With the right number
    of items and no key [0], packing into a template with a leaf raises
    [KeyError]. *)
Theorem pack_flat_dict_KeyError str_of structure kind items leaves :
  composite structure = true -> well_formed structure = true ->
  flatten_iterable structure = Ok leaves ->
  List.length items = List.length leaves -> leaves <> [] ->
  ~ In (KInt 0) (iterkeys items) ->
  pack_iterable_as str_of structure (VDict kind items)
  = Raise (KeyError (KInt 0)).
Proof.
  intros Hc Hw Hl Hlen Hne Hk.
  rewrite pack_iterable_as_composite by auto.
  rewrite Hl. cbn [bind len]. rewrite <- Hlen, Nat.eqb_refl. cbn [negb].
  rewrite flatten_iterable_unfold, Hc in Hl.
  rewrite (packed_nest_fail str_of (VDict kind items) (S (depth structure))
             structure (Nat.lt_succ_diag_r _) Hc Hw 0 [] leaves
             (KeyError (KInt 0)) Hl); [reflexivity| | |].
  - destruct leaves; [congruence|simpl; lia].
  - intros [|i] x Hi; discriminate.
  - simpl. now apply dict_get_notin.
Qed.

Lemma pack_flat_dict_KeyError_witness :
  pack_iterable_as no_str (VList [VInt 1; VInt 2])
    (VDict PlainDict [(KStr "a", VInt 10); (KStr "b", VInt 20)])
  = Raise (KeyError (KInt 0)).
Proof.
  apply (pack_flat_dict_KeyError no_str (VList [VInt 1; VInt 2]) PlainDict
           [(KStr "a", VInt 10); (KStr "b", VInt 20)] [VInt 1; VInt 2]);
    try reflexivity; [discriminate|].
  simpl. intros [H|[H|[]]]; discriminate.
Defined.

(** ** Shape and leaves determine a structure *)

Lemma app_inj_length {A} (a1 a2 b1 b2 : list A) :
  List.length a1 = List.length a2 -> a1 ++ b1 = a2 ++ b2 ->
  a1 = a2 /\ b1 = b2.
Proof.
  revert a2. induction a1 as [|x a1 IH]; intros [|y a2] Hlen H;
    try discriminate; [auto|].
  injection H as -> H. injection Hlen as Hlen.
  destruct (IH a2 Hlen H) as [-> ->]. auto.
Qed.

Lemma count_leaves_shape v : count_leaves (shape v) = count_leaves v.
Proof.
  induction v as [ | | | | |l IH|l IH|tn fs l IH|kind items IH]
    using value_ind_nested; try reflexivity; simpl; rewrite map_map;
    f_equal; apply map_ext_in; intros x Hx;
    rewrite Forall_forall in IH; now apply IH.
Qed.

Lemma shape_composite v1 v2 :
  shape v1 = shape v2 -> composite v1 = composite v2.
Proof. destruct v1, v2; simpl; congruence. Qed.

(** Children of equal shapes with the same leaves overall are the same
    children, where each child is determined by its shape and leaves. *)
Lemma children_determined ss1 :
  forall ss2 nis1 nis2,
    Forall (fun s1 => well_formed s1 = true /\
              forall s2 x, well_formed s2 = true -> shape s1 = shape s2 ->
                flatten_iterable s1 = Ok x -> flatten_iterable s2 = Ok x ->
                s1 = s2) ss1 ->
    Forall (fun s2 => well_formed s2 = true) ss2 ->
    map shape ss1 = map shape ss2 ->
    mapM flatten_iterable ss1 = Ok nis1 ->
    mapM flatten_iterable ss2 = Ok nis2 ->
    List.concat nis1 = List.concat nis2 ->
    ss1 = ss2.
Proof.
  induction ss1 as [|s1 ss1 IH]; intros [|s2 ss2] nis1 nis2 H1 H2 Hsh Hn1 Hn2 Hc;
    try discriminate; [reflexivity|].
  simpl in Hn1, Hn2.
  destruct (flatten_iterable s1) as [ni1|] eqn:E1; simpl in Hn1;
    try discriminate.
  destruct (mapM flatten_iterable ss1) as [nis1'|] eqn:E1'; simpl in Hn1;
    try discriminate.
  destruct (flatten_iterable s2) as [ni2|] eqn:E2; simpl in Hn2;
    try discriminate.
  destruct (mapM flatten_iterable ss2) as [nis2'|] eqn:E2'; simpl in Hn2;
    try discriminate.
  injection Hn1 as <-. injection Hn2 as <-. simpl in Hc.
  injection Hsh as Hs Hss.
  inversion H1 as [|? ? [Hw1 Hdet] H1']; subst.
  inversion H2 as [|? ? Hw2 H2']; subst.
  assert (Hlen : List.length ni1 = List.length ni2).
  { rewrite (flatten_iterable_count _ s1 ni1 (Nat.lt_succ_diag_r _) Hw1 E1),
      (flatten_iterable_count _ s2 ni2 (Nat.lt_succ_diag_r _) Hw2 E2).
    now rewrite <- (count_leaves_shape s1), Hs, count_leaves_shape. }
  destruct (app_inj_length ni1 ni2 (List.concat nis1') (List.concat nis2')
              Hlen Hc) as [-> Hc'].
  f_equal; [eapply Hdet; eassumption|].
  eapply IH; eauto.
Qed.

Lemma mapM_dict_get_agree items1 items2 ks ss :
  mapM (fun key => dict_get items1 key) ks = Ok ss ->
  mapM (fun key => dict_get items2 key) ks = Ok ss ->
  forall k, In k ks -> dict_get items1 k = dict_get items2 k.
Proof.
  revert ss. induction ks as [|k' ks IH]; intros ss H1 H2 k Hk;
    [destruct Hk|].
  simpl in H1, H2.
  destruct (dict_get items1 k') eqn:E1; simpl in H1; try discriminate.
  destruct (mapM _ ks) eqn:E1' in H1; simpl in H1; try discriminate.
  destruct (dict_get items2 k') eqn:E2; simpl in H2; try discriminate.
  destruct (mapM _ ks) eqn:E2' in H2; simpl in H2; try discriminate.
  injection H1 as <-. injection H2 as H2a H2b. subst.
  destruct Hk as [<-|Hk]; [congruence|]. eapply IH; eauto.
Qed.

Lemma shape_items_keys items1 items2 :
  map (fun kv : key * value => (fst kv, shape (snd kv))) items1
  = map (fun kv : key * value => (fst kv, shape (snd kv))) items2 ->
  iterkeys items1 = iterkeys items2.
Proof.
  intros H. apply (f_equal (map fst)) in H. rewrite !map_map in H. exact H.
Qed.

Lemma shape_items_lookup items1 items2 k r1 r2 :
  map (fun kv : key * value => (fst kv, shape (snd kv))) items1
  = map (fun kv : key * value => (fst kv, shape (snd kv))) items2 ->
  dict_get items1 k = Ok r1 -> dict_get items2 k = Ok r2 ->
  shape r1 = shape r2.
Proof.
  revert items2.
  induction items1 as [|[k1 v1] items1 IH]; intros [|[k2 v2] items2] H;
    try discriminate.
  simpl in H. injection H as -> Hv H. simpl.
  destruct (key_eqb k k2); [congruence|]. now apply IH.
Qed.

Lemma mapM_dict_get_shapes items1 items2 ks :
  map (fun kv : key * value => (fst kv, shape (snd kv))) items1
  = map (fun kv : key * value => (fst kv, shape (snd kv))) items2 ->
  forall ss1 ss2,
    mapM (fun key => dict_get items1 key) ks = Ok ss1 ->
    mapM (fun key => dict_get items2 key) ks = Ok ss2 ->
    map shape ss1 = map shape ss2.
Proof.
  intros Hsh. induction ks as [|k ks IH]; intros ss1 ss2 H1 H2; simpl in *.
  - injection H1 as <-. now injection H2 as <-.
  - destruct (dict_get items1 k) eqn:E1; simpl in H1; try discriminate.
    destruct (mapM _ ks) eqn:E1' in H1; simpl in H1; try discriminate.
    destruct (dict_get items2 k) eqn:E2; simpl in H2; try discriminate.
    destruct (mapM _ ks) eqn:E2' in H2; simpl in H2; try discriminate.
    injection H1 as <-. injection H2 as <-. simpl. f_equal.
    + eapply shape_items_lookup; eassumption.
    + eapply IH; eauto.
Qed.

Lemma flatten_iterable_injective_depth d :
  forall r1 r2 xs,
    depth r1 < d ->
    well_formed r1 = true -> well_formed r2 = true ->
    shape r1 = shape r2 ->
    flatten_iterable r1 = Ok xs -> flatten_iterable r2 = Ok xs ->
    r1 = r2.
Proof.
  induction d as [|d IH]; intros r1 r2 xs Hd Hw1 Hw2 Hsh Hf1 Hf2; [lia|].
  assert (Hcc := shape_composite r1 r2 Hsh).
  rewrite flatten_iterable_unfold in Hf1, Hf2.
  destruct (composite r1) eqn:Hc1; rewrite <- Hcc in Hf2; [|congruence].
  symmetry in Hcc.
  rewrite (flat_nest_unfold r1 Hc1) in Hf1.
  rewrite (flat_nest_unfold r2 Hcc) in Hf2.
  destruct (_yield_value_from_iterable r1) as [ss1|] eqn:Hy1; simpl in Hf1;
    try discriminate.
  destruct (mapM flatten_iterable ss1) as [nis1|] eqn:Hn1; simpl in Hf1;
    try discriminate.
  destruct (_yield_value_from_iterable r2) as [ss2|] eqn:Hy2; simpl in Hf2;
    try discriminate.
  destruct (mapM flatten_iterable ss2) as [nis2|] eqn:Hn2; simpl in Hf2;
    try discriminate.
  injection Hf1 as <-. injection Hf2 as Hc. symmetry in Hc.
  assert (Hdet : forall ss2', map shape ss1 = map shape ss2' ->
             _yield_value_from_iterable r2 = Ok ss2' -> ss1 = ss2').
  { intros ss2' Hshs Hy2'. rewrite Hy2 in Hy2'. injection Hy2' as <-.
    apply (children_determined ss1 ss2 nis1 nis2); auto.
    - apply Forall_forall. intros s Hs.
      assert (depth s < depth r1)
        by (apply (children_depth r1 ss1 s Hc1 Hy1 Hs)).
      assert (Hws := children_well_formed r1 ss1 s Hw1 Hy1 Hs).
      split; [exact Hws|].
      intros s2 x Hws2 Hshs2 Hx1 Hx2.
      apply (IH s s2 x); auto. lia.
    - apply Forall_forall. intros s Hs.
      apply (children_well_formed r2 ss2 s Hw2 Hy2 Hs). }
  destruct r1 as [ | | | | |l1|l1|tn1 fs1 l1|kind1 items1]; try discriminate;
    destruct r2 as [ | | | | |l2|l2|tn2 fs2 l2|kind2 items2];
    try discriminate; simpl in Hsh.
  - injection Hsh as Hsh. simpl in Hy1, Hy2. injection Hy1 as <-.
    f_equal. now apply Hdet.
  - injection Hsh as Hsh. simpl in Hy1, Hy2. injection Hy1 as <-.
    f_equal. now apply Hdet.
  - injection Hsh as -> -> Hsh. simpl in Hy1, Hy2. injection Hy1 as <-.
    f_equal. now apply Hdet.
  - injection Hsh as -> Hsh.
    assert (Hkeys := shape_items_keys _ _ Hsh).
    simpl in Hw1, Hw2.
    apply andb_true_iff in Hw1 as [Hnd1 _].
    apply andb_true_iff in Hw2 as [Hnd2 _].
    apply nodup_keys_NoDup in Hnd1, Hnd2.
    destruct (yield_dict_inv _ _ _ Hy1) as (ks & Hks1 & Hg1).
    destruct (yield_dict_inv _ _ _ Hy2) as (ks2 & Hks2 & Hg2).
    assert (ks2 = ks) as ->.
    { unfold _sorted in Hks1, Hks2. rewrite Hkeys in Hks1. congruence. }
    assert (ss1 = ss2) as <-.
    { apply Hdet; [|assumption].
      eapply mapM_dict_get_shapes; eassumption. }
    f_equal.
    rewrite <- (item_of_items items1 Hnd1), <- (item_of_items items2 Hnd2).
    rewrite Hkeys. apply map_ext_in. intros k Hk. unfold item_of.
    rewrite (mapM_dict_get_agree items1 items2 ks ss1 Hg1 Hg2 k);
      [reflexivity|].
    eapply Permutation_in; [apply _sorted_perm; exact Hks2|exact Hk].
Qed.

(** Two structures of the same shape that flatten to the same list are the
    same structure: with its shape, the flattened list loses nothing. *)
Theorem flatten_iterable_injective r1 r2 xs :
  well_formed r1 = true -> well_formed r2 = true ->
  shape r1 = shape r2 ->
  flatten_iterable r1 = Ok xs -> flatten_iterable r2 = Ok xs ->
  r1 = r2.
Proof.
  intros. eapply (flatten_iterable_injective_depth (S (depth r1))); eauto.
Qed.

Lemma flatten_iterable_injective_witness :
  VList [VInt 1; VTuple [VInt 2]] = VList [VInt 1; VTuple [VInt 2]].
Proof.
  apply (flatten_iterable_injective _ _ [VInt 1; VInt 2]); reflexivity.
Defined.

Lemma leaf_well_formed v : composite v = false -> well_formed v = true.
Proof. destruct v; try discriminate; reflexivity. Qed.

Lemma pack_same_shape str_of t1 t2 flat xs leaves1 leaves2 :
  well_formed t1 = true -> well_formed t2 = true ->
  shape t1 = shape t2 ->
  flatten_iterable t1 = Ok leaves1 -> flatten_iterable t2 = Ok leaves2 ->
  composite flat = true -> len flat = Ok (List.length xs) ->
  has_at flat 0 xs ->
  List.length xs = List.length leaves1 ->
  Forall leaf xs ->
  exists r,
    pack_iterable_as str_of t1 flat = Ok r /\
    pack_iterable_as str_of t2 flat = Ok r.
Proof.
  intros Hw1 Hw2 Hsh Hl1 Hl2 Hf Hn Hat Hlen Hleaf.
  assert (Hlen2 : List.length xs = List.length leaves2).
  { rewrite Hlen,
      (flatten_iterable_count _ t1 leaves1 (Nat.lt_succ_diag_r _) Hw1 Hl1),
      (flatten_iterable_count _ t2 leaves2 (Nat.lt_succ_diag_r _) Hw2 Hl2).
    now rewrite <- (count_leaves_shape t1), Hsh, count_leaves_shape. }
  assert (Hwxs : Forall (fun x => well_formed x = true) xs).
  { eapply Forall_impl; [|exact Hleaf]. apply leaf_well_formed. }
  assert (Hxss := mapM_flatten_leaves xs Hleaf).
  destruct (pack_iterable_as_any str_of t1 flat xs leaves1
              Hw1 Hl1 Hf Hn Hat Hlen) as (r1 & Hp1 & Hfl1 & Hsh1 & Hwr1).
  destruct (pack_iterable_as_any str_of t2 flat xs leaves2
              Hw2 Hl2 Hf Hn Hat Hlen2) as (r2 & Hp2 & Hfl2 & Hsh2 & Hwr2).
  exists r1. split; [assumption|]. rewrite Hp2. f_equal. symmetry.
  apply (flatten_iterable_injective_depth (S (depth r1)) r1 r2
           (List.concat (map (fun n => [n]) xs))
           (Nat.lt_succ_diag_r _) (Hwr1 Hwxs) (Hwr2 Hwxs)).
  - rewrite (Hsh1 Hleaf), (Hsh2 Hleaf). exact Hsh.
  - exact (Hfl1 _ Hxss).
  - exact (Hfl2 _ Hxss).
Qed.

(** Packing reads the template for its shape alone: two templates of one
    shape, whatever their leaves, give the same result. *)
Theorem pack_ignores_template_leaves str_of t1 t2 flat xs leaves1 leaves2 :
  well_formed t1 = true -> well_formed t2 = true ->
  shape t1 = shape t2 ->
  flatten_iterable t1 = Ok leaves1 -> flatten_iterable t2 = Ok leaves2 ->
  sequence_elems flat = Some xs ->
  List.length xs = List.length leaves1 ->
  Forall leaf xs ->
  exists r,
    pack_iterable_as str_of t1 flat = Ok r /\
    pack_iterable_as str_of t2 flat = Ok r.
Proof.
  intros Hw1 Hw2 Hsh Hl1 Hl2 Hseq Hlen Hleaf.
  destruct (has_at_sequence flat xs Hseq) as (Hf & Hn & Hat).
  eapply pack_same_shape; eassumption.
Qed.

Lemma pack_ignores_template_leaves_witness :
  exists r,
    pack_iterable_as no_str
      (VDict OrderedDict [(KStr "b", VInt 2); (KStr "a", VInt 1)])
      (VList [VInt 7; VInt 8]) = Ok r /\
    pack_iterable_as no_str
      (VDict OrderedDict [(KStr "b", VNone); (KStr "a", VStr "s")])
      (VList [VInt 7; VInt 8]) = Ok r.
Proof.
  apply (pack_ignores_template_leaves no_str
           (VDict OrderedDict [(KStr "b", VInt 2); (KStr "a", VInt 1)])
           (VDict OrderedDict [(KStr "b", VNone); (KStr "a", VStr "s")])
           (VList [VInt 7; VInt 8]) [VInt 7; VInt 8]
           [VInt 1; VInt 2] [VStr "s"; VNone]);
    try reflexivity.
  repeat constructor.
Defined.

(** For a template that flattens and a list, tuple or namedtuple of flat
    values, packing returns a value exactly when there are as many values
    as the template has leaves. *)
Theorem pack_ok_iff_arity str_of structure flat xs leaves :
  well_formed structure = true ->
  flatten_iterable structure = Ok leaves ->
  sequence_elems flat = Some xs ->
  (exists r, pack_iterable_as str_of structure flat = Ok r)
  <-> List.length xs = List.length leaves.
Proof.
  intros Hw Hl Hseq.
  destruct (has_at_sequence flat xs Hseq) as (Hf & Hn & Hat).
  split.
  - intros [r Hr].
    destruct (Nat.eq_dec (List.length xs) (List.length leaves)) as [|Hne];
      [assumption|exfalso].
    destruct (composite structure) eqn:Hc.
    + rewrite pack_iterable_as_composite in Hr by assumption.
      rewrite Hl, Hn in Hr. cbn [bind] in Hr.
      replace (List.length leaves =? List.length xs)%nat with false in Hr
        by (symmetry; apply Nat.eqb_neq; congruence).
      discriminate.
    + rewrite pack_iterable_as_scalar in Hr by assumption.
      rewrite flatten_iterable_unfold, Hc in Hl. injection Hl as <-.
      rewrite Hn in Hr. cbn [bind] in Hr. simpl in Hne.
      apply Nat.eqb_neq in Hne. rewrite Hne in Hr. discriminate.
  - intros Hlen.
    destruct (pack_iterable_as_any str_of structure flat xs leaves
                Hw Hl Hf Hn Hat Hlen) as (r & Hp & _).
    eauto.
Qed.

Lemma pack_ok_iff_arity_witness :
  (exists r,
      pack_iterable_as no_str example_nested
        (VTuple [VInt 1; VInt 2; VInt 3; VInt 4; VInt 5]) = Ok r)
  <-> List.length [VInt 1; VInt 2; VInt 3; VInt 4; VInt 5]
      = List.length [VStr "a"; VInt 1; VInt 2; VStr "b"; VStr "c"].
Proof.
  apply (pack_ok_iff_arity no_str example_nested
           (VTuple [VInt 1; VInt 2; VInt 3; VInt 4; VInt 5]));
    reflexivity.
Defined.

(** ** Flattening a concatenation *)

(** Flattening a list is flattening its parts in turn: the leaves of
    [l1 + l2] are those of [l1] followed by those of [l2], and an exception
    is that of the first part that raises. *)
Theorem flatten_iterable_app l1 l2 :
  flatten_iterable (VList (l1 ++ l2)) =
  a <- flatten_iterable (VList l1) ;;
  b <- flatten_iterable (VList l2) ;;
  Ok (a ++ b).
Proof.
  rewrite !flatten_iterable_unfold. simpl composite. cbv iota.
  rewrite !flat_nest_unfold by reflexivity. simpl _yield_value_from_iterable.
  cbn [bind]. rewrite mapM_app.
  destruct (mapM flatten_iterable l1) as [nis1|]; cbn [bind]; [|reflexivity].
  destruct (mapM flatten_iterable l2) as [nis2|]; cbn [bind]; [|reflexivity].
  now rewrite concat_app.
Qed.

(** ** Too few values for a mapping *)

Lemma iterkeys_zip_incl (ks : list key) (args : list value) :
  incl (iterkeys (zip ks args)) ks /\
  List.length (iterkeys (zip ks args)) <= List.length args /\
  (NoDup ks -> NoDup (iterkeys (zip ks args))).
Proof.
  revert args. induction ks as [|k ks IH]; intros [|a args]; simpl.
  - repeat split; [intros x []|lia|constructor].
  - repeat split; [intros x []|lia|constructor].
  - repeat split; [intros x []|lia|constructor].
  - destruct (IH args) as (Hi & Hl & Hn). repeat split.
    + intros x [<-|Hx]; [now left|right; auto].
    + lia.
    + intros H. inversion H as [|? ? Hk Hnd]; subst. constructor; auto.
Qed.

Lemma mapM_lookup_missing Z l :
  ~ incl l (iterkeys Z) ->
  exists k, In k l /\
    mapM (fun key => v <- dict_get Z key ;; Ok (key, v)) l
    = Raise (KeyError k).
Proof.
  induction l as [|k l IH]; intros H.
  - exfalso. apply H. intros x [].
  - simpl. destruct (in_dec key_eq_dec k (iterkeys Z)) as [Hin|Hout].
    + destruct (dict_get_key Z k Hin) as [v ->]. cbn [bind].
      destruct IH as (k' & Hk' & ->).
      { intros Hl. apply H. intros x [<-|Hx]; auto. }
      exists k'. split; [now right|reflexivity].
    + exists k. split; [now left|].
      now rewrite (dict_get_notin Z k Hout).
Qed.

(** [_iterable_like] on a dictionary given fewer values than it has keys:
    [zip] stops with the values, and the lookup of a key left without one
    raises [KeyError]. *)
Theorem _iterable_like_too_few str_of kind items args :
  NoDup (iterkeys items) ->
  pairwise_comparable (iterkeys items) = true ->
  List.length args < List.length items ->
  exists k,
    In k (iterkeys items) /\
    _iterable_like str_of (VDict kind items) args = Raise (KeyError k).
Proof.
  intros Hnd Hpc Hlen.
  destruct (_sorted_ok items Hpc) as (ks & Hks & HP).
  assert (Hndk : NoDup ks) by (eapply Permutation_NoDup; eassumption).
  destruct (iterkeys_zip_incl ks args) as (Hincl & Hle & Hndz).
  simpl. rewrite Hks. cbn [bind].
  rewrite dict_of_pairs_NoDup by auto.
  destruct (mapM_lookup_missing (zip ks args) (iterkeys items))
    as (k & Hk & ->).
  - intros Hi. apply (NoDup_incl_length Hnd) in Hi.
    unfold iterkeys in Hi at 1. rewrite length_map in Hi. lia.
  - exists k. split; [assumption|reflexivity].
Qed.

Lemma _iterable_like_too_few_witness :
  exists k,
    In k [KStr "b"; KStr "a"] /\
    _iterable_like no_str (VDict OrderedDict ordered_ba) [VInt 5]
    = Raise (KeyError k).
Proof.
  apply (_iterable_like_too_few no_str OrderedDict ordered_ba [VInt 5]).
  - apply nodup_keys_NoDup. reflexivity.
  - reflexivity.
  - simpl. lia.
Defined.

(** ** Packing again *)

(** What was packed serves as a template like the template it came from:
    packing other leaves into it gives what packing them into the first
    template gives. *)
Theorem pack_into_packed str_of structure flat1 flat2 xs ys leaves r :
  well_formed structure = true ->
  flatten_iterable structure = Ok leaves ->
  sequence_elems flat1 = Some xs -> sequence_elems flat2 = Some ys ->
  List.length xs = List.length leaves ->
  List.length ys = List.length leaves ->
  Forall leaf xs -> Forall leaf ys ->
  pack_iterable_as str_of structure flat1 = Ok r ->
  pack_iterable_as str_of r flat2 = pack_iterable_as str_of structure flat2.
Proof.
  intros Hw Hl Hs1 Hs2 Hlx Hly Hleafx Hleafy Hr.
  destruct (has_at_sequence flat1 xs Hs1) as (Hf1 & Hn1 & Hat1).
  destruct (has_at_sequence flat2 ys Hs2) as (Hf2 & Hn2 & Hat2).
  destruct (pack_iterable_as_any str_of structure flat1 xs leaves
              Hw Hl Hf1 Hn1 Hat1 Hlx) as (r' & Hp & Hfl & Hsh & Hwr).
  rewrite Hr in Hp. injection Hp as <-.
  assert (Hflr : flatten_iterable r = Ok xs).
  { rewrite (Hfl _ (mapM_flatten_leaves xs Hleafx)).
    now rewrite concat_singletons. }
  destruct (pack_same_shape str_of r structure flat2 ys xs leaves)
    as (r2 & H1 & H2); auto; try congruence.
  apply Hwr. eapply Forall_impl; [|exact Hleafx]. apply leaf_well_formed.
Qed.

Lemma pack_into_packed_witness :
  pack_iterable_as no_str
    (VList [VStr "p";
            VDict PlainDict [(KStr "y", VInt 8); (KStr "x", VInt 9)];
            VTuple [VStr "q"; VStr "r"]])
    (VTuple [VInt 1; VInt 2; VInt 3; VInt 4; VInt 5])
  = pack_iterable_as no_str example_nested
      (VTuple [VInt 1; VInt 2; VInt 3; VInt 4; VInt 5]).
Proof.
  apply (pack_into_packed no_str example_nested
           (VList [VStr "p"; VInt 9; VInt 8; VStr "q"; VStr "r"])
           (VTuple [VInt 1; VInt 2; VInt 3; VInt 4; VInt 5])
           [VStr "p"; VInt 9; VInt 8; VStr "q"; VStr "r"]
           [VInt 1; VInt 2; VInt 3; VInt 4; VInt 5]
           [VStr "a"; VInt 1; VInt 2; VStr "b"; VStr "c"]);
    try reflexivity; repeat constructor.
Defined.

(** ** A dictionary as the flat values *)

(** A dictionary that maps the positions [0 .. n-1] to values is read like
    the list of those values: packing from it gives what packing from the
    list gives. *)
Theorem pack_flat_dict_positions str_of structure kind items xs leaves :
  well_formed structure = true ->
  flatten_iterable structure = Ok leaves ->
  List.length items = List.length xs ->
  (forall i x, nth_error xs i = Some x ->
               dict_get items (KInt (Z.of_nat i)) = Ok x) ->
  List.length xs = List.length leaves ->
  Forall leaf xs ->
  exists r,
    pack_iterable_as str_of structure (VDict kind items) = Ok r /\
    pack_iterable_as str_of structure (VList xs) = Ok r.
Proof.
  intros Hw Hl Hli Hget Hlen Hleaf.
  assert (Hwxs : Forall (fun x => well_formed x = true) xs).
  { eapply Forall_impl; [|exact Hleaf]. apply leaf_well_formed. }
  assert (Hxss := mapM_flatten_leaves xs Hleaf).
  destruct (pack_iterable_as_any str_of structure (VDict kind items) xs leaves)
    as (r1 & Hp1 & Hfl1 & Hsh1 & Hwr1); auto.
  { simpl. now rewrite Hli. }
  destruct (pack_iterable_as_any str_of structure (VList xs) xs leaves)
    as (r2 & Hp2 & Hfl2 & Hsh2 & Hwr2); auto using has_at_VList.
  exists r1. split; [assumption|]. rewrite Hp2. f_equal. symmetry.
  apply (flatten_iterable_injective_depth (S (depth r1)) r1 r2
           (List.concat (map (fun n => [n]) xs))
           (Nat.lt_succ_diag_r _) (Hwr1 Hwxs) (Hwr2 Hwxs)).
  - now rewrite (Hsh1 Hleaf), (Hsh2 Hleaf).
  - exact (Hfl1 _ Hxss).
  - exact (Hfl2 _ Hxss).
Qed.

Lemma pack_flat_dict_positions_witness :
  exists r,
    pack_iterable_as no_str (VTuple [VNone; VList [VNone]])
      (VDict PlainDict [(KInt 1, VStr "b"); (KInt 0, VStr "a")]) = Ok r /\
    pack_iterable_as no_str (VTuple [VNone; VList [VNone]])
      (VList [VStr "a"; VStr "b"]) = Ok r.
Proof.
  apply (pack_flat_dict_positions no_str (VTuple [VNone; VList [VNone]])
           PlainDict [(KInt 1, VStr "b"); (KInt 0, VStr "a")]
           [VStr "a"; VStr "b"] [VNone; VNone]);
    try reflexivity.
  - intros [|[|[|i]]] x Hi; simpl in Hi; try discriminate;
      injection Hi as <-; reflexivity.
  - repeat constructor.
Defined.
